(** * Request-scoped database clients: the context store, the query proxy
      and [db.run] of [pkgs/node-postgres/src/driver.ts]

    The development embeds the three pieces of the driver that carry logic:

    - [getClientFromContext] (driver.ts, lines 28-48),
    - the [query] method of [proxyClient] (lines 234-239),
    - [db.run] (lines 258-275),

    together with the part of the JavaScript runtime they rely on: values
    and their truthiness, [typeof], mutable objects reached through
    references, and [AsyncLocalStorage], whose store is carried by each
    asynchronous chain.  The pg library, user factories and user clients
    are collaborators outside the repository; they are taken through the
    [Runtime] interface and every theorem holds for all of its instances.

    Callbacks are first functions of the store and the world, which is all
    [db.run] needs to know of them; to speak of requests in flight together
    they are programs, stepped by an event loop that may resume any chain
    at each suspension point. *)

From Stdlib Require Import ZArith String List Bool Lia.
From stdpp Require Import base list.
Import ListNotations.
Local Open Scope string_scope.
Local Open Scope list_scope.

(** ** JavaScript values *)

(** Functions and objects are known by their identity.  Numbers are kept to
    the integers and NaN, which is all truthiness can tell apart. *)
Inductive value : Type :=
| VUndefined
| VNull
| VBool (b : bool)
| VNum (n : Z)
| VNaN
| VStr (s : string)
| VFun (f : nat)
| VObj (o : nat).

(** ToBoolean: what [if (x)] and [!x] test. *)
Definition truthy (v : value) : bool :=
  match v with
  | VUndefined | VNull | VNaN => false
  | VBool b => b
  | VNum n => negb (Z.eqb n 0)
  | VStr s => negb (String.eqb s "")
  | VFun _ | VObj _ => true
  end.

Definition typeof (v : value) : string :=
  match v with
  | VUndefined => "undefined"
  | VNull => "object"
  | VBool _ => "boolean"
  | VNum _ | VNaN => "number"
  | VStr _ => "string"
  | VFun _ => "function"
  | VObj _ => "object"
  end.

(** The characters of a string value; only read under [typeof v = "string"]. *)
Definition string_of (v : value) : string :=
  match v with
  | VStr s => s
  | _ => ""
  end.

(** ** Completions, errors and outcomes *)

(** How a call into foreign code ends: it returns a value or throws one. *)
Inductive completion : Type :=
| Normal (v : value)
| Abrupt (thrown : value).

(** What a caller of the driver can catch: an [Error] built by the driver
    itself (known by its message), the engine's [TypeError] for a member
    call on something that has no such method, or whatever foreign code
    threw. *)
Inductive exn : Type :=
| CoreError (message : string)
| TypeError
| Foreign (thrown : value).

Inductive outcome (T : Type) : Type :=
| Ok (x : T)
| Err (e : exn).
Arguments Ok {T} x.
Arguments Err {T} e.

Definition lift (c : completion) : outcome value :=
  match c with
  | Normal v => Ok v
  | Abrupt x => Err (Foreign x)
  end.

(** The two messages of driver.ts, lines 32 and 46. *)
Definition msg_no_context : string :=
  "No database context found. Make sure to call db.run() to establish a request context.".

Definition msg_no_client_or_factory : string :=
  "No client or factory found in context. This should not happen.".

(** [contains needle s]: [needle] occurs in [s]. *)
Fixpoint contains (needle s : string) : bool :=
  String.prefix needle s
  || match s with
     | EmptyString => false
     | String _ rest => contains needle rest
     end.

(** ** The context record *)

(** [interface DrizzleContext { client?: ...; factory?: ... }].  A field is
    absent ([None]) or holds a value. *)
Record DrizzleContext : Type := mkContext {
  client : option value;
  factory : option value;
}.

(** Reading a field: an absent one reads as [undefined]. *)
Definition get (field : option value) : value :=
  match field with
  | Some v => v
  | None => VUndefined
  end.

#[global] Instance DrizzleContext_inhabited : Inhabited DrizzleContext :=
  populate (mkContext None None).

(** ** The collaborators *)

(** What the driver calls but does not define.  [Ext] is the state of the
    outside world (the databases, whatever the factories close over).
    - [pg_Pool_new s] is [new pg.Pool({ connectionString: s })]; a [new]
      expression yields an object, named here by its identity, and the
      constructor of pg only stores its options, so it does not throw;
    - [call_function f] is the call [f()];
    - [client_query o text values] is [o.query(text, values)], with its
      promise followed to the end: the completion is what the caller that
      awaits it gets.
    Foreign code acts on the outside world only.  The context records are
    built inside [db.run] and handed to nobody; a factory is called as a
    method of its record, and is taken not to use [this]. *)
Class Runtime (Ext : Type) : Type := {
  pg_Pool_new : string -> Ext -> nat * Ext;
  call_function : nat -> Ext -> completion * Ext;
  client_query : nat -> value -> value -> Ext -> completion * Ext;
}.

(** What the driver does that can be seen from outside it, in the order it
    happens: the calls that leave it, and the one assignment it makes,
    [context.client = c] on the record at reference [r]. *)
Inductive event : Type :=
| EvPoolNew (connectionString : string) (o : nat)
| EvFactoryCall (f : nat) (res : completion)
| EvAssignClient (r : nat) (c : value)
| EvClientQuery (o : nat) (text values : value) (res : completion).

Section Driver.

Context {Ext : Type} `{RT : Runtime Ext}.

(** The world: the context records, shared by reference, the outside world,
    and the events so far. *)
Record world : Type := mkWorld {
  heap : list DrizzleContext;
  ext : Ext;
  log : list event;
}.

Definition with_ext (e : Ext) (ev : event) (w : world) : world :=
  mkWorld (heap w) e (log w ++ [ev]).

(** [context.client = c] on the record at reference [r]. *)
Definition assign_client (r : nat) (c : value) (w : world) : world :=
  mkWorld (<[r := mkContext (Some c) (factory (heap w !!! r))]> (heap w))
          (ext w) (log w ++ [EvAssignClient r c]).

(** An object literal: a record at a reference nothing else holds. *)
Definition alloc (context : DrizzleContext) (w : world) : nat * world :=
  (length (heap w), mkWorld (heap w ++ [context]) (ext w) (log w)).

(** Computations of the driver read the store of the asynchronous chain
    they run in and act on the world. *)
Definition M (A : Type) : Type := option nat -> world -> A * world.

(** [asyncLocalStorage.getStore()]. *)
Definition getStore : M (option nat) := fun store w => (store, w).

(** [asyncLocalStorage.run(r, callback)]: [callback] runs with [r] as the
    store of its chain, and its result is handed back as it is. *)
Definition asyncLocalStorage_run {A : Type} (r : nat) (callback : M A) : M A :=
  fun _ w => callback (Some r) w.

(** [new pg.Pool({ connectionString: s })]. *)
Definition new_Pool (s : string) (w : world) : value * world :=
  let '(o, e) := pg_Pool_new s (ext w) in
  (VObj o, with_ext e (EvPoolNew s o) w).

(** The call [v()]: only a function can be called. *)
Definition call (v : value) (w : world) : outcome value * world :=
  match v with
  | VFun f =>
      let '(res, e) := call_function f (ext w) in
      (lift res, with_ext e (EvFactoryCall f res) w)
  | _ => (Err TypeError, w)
  end.

(** The member call [c.query(text, values)]: only an object has the
    method. *)
Definition invoke_query (c text values : value) (w : world) : outcome value * world :=
  match c with
  | VObj o =>
      let '(res, e) := client_query o text values (ext w) in
      (lift res, with_ext e (EvClientQuery o text values res) w)
  | _ => (Err TypeError, w)
  end.

(** driver.ts, lines 28-48. *)
Definition getClientFromContext : M (outcome value) := fun store w =>
  match fst (getStore store w) with
  | None => (Err (CoreError msg_no_context), w)
  | Some r =>
      let context := heap w !!! r in
      if truthy (get (client context)) then (Ok (get (client context)), w)
      else if truthy (get (factory context)) then
        let '(res, w1) := call (get (factory context)) w in
        match res with
        | Ok c => (Ok c, assign_client r c w1)
        | Err e => (Err e, w1)
        end
      else (Err (CoreError msg_no_client_or_factory), w)
  end.

(** driver.ts, lines 234-239: the [query] method of [proxyClient]. *)
Definition proxy_query (text values : value) : M (outcome value) := fun store w =>
  let '(res, w1) := getClientFromContext store w in
  match res with
  | Ok c => invoke_query c text values w1
  | Err e => (Err e, w1)
  end.

(** driver.ts, lines 262-272: the record [db.run] builds from its input. *)
Definition normalize (clientOrFactory : value) (w : world) : DrizzleContext * world :=
  if String.eqb (typeof clientOrFactory) "string" then
    let '(instance, w1) := new_Pool (string_of clientOrFactory) w in
    (mkContext (Some instance) None, w1)
  else if String.eqb (typeof clientOrFactory) "function" then
    (mkContext None (Some clientOrFactory), w)
  else
    (mkContext (Some clientOrFactory) None, w).

(** driver.ts, lines 258-275: [db.run]. *)
Definition db_run {T : Type} (clientOrFactory : value) (callback : M (outcome T))
  : M (outcome T) := fun store w =>
  let '(context, w1) := normalize clientOrFactory w in
  let '(r, w2) := alloc context w1 in
  asyncLocalStorage_run r callback store w2.

(** ** Callbacks *)

(** A callback that awaits the given queries one after the other, catching
    what each one throws, and resolves with all the outcomes. *)
Fixpoint query_all (qs : list (value * value)) : M (list (outcome value)) :=
  fun store w =>
  match qs with
  | [] => ([], w)
  | (text, values) :: rest =>
      let '(res, w1) := proxy_query text values store w in
      let '(out, w2) := query_all rest store w1 in
      (res :: out, w2)
  end.

Definition queries (qs : list (value * value)) : M (outcome (list (outcome value))) :=
  fun store w => let '(out, w1) := query_all qs store w in (Ok out, w1).

(** Callbacks as programs: what an asynchronous function does with the
    handle.  It settles, or awaits a query through the proxy and goes on
    with its outcome, or awaits a nested [db.run] and goes on with its
    outcome.  Every [Query] and [Run] is a point where the chain may be
    suspended. *)
Inductive prog : Type :=
| Settle (res : outcome value)
| Query (text values : value) (k : outcome value -> prog)
| Run (clientOrFactory : value) (body : prog) (k : outcome value -> prog).

(** A chain run from start to end with nothing else interleaved. *)
Fixpoint exec (p : prog) : M (outcome value) := fun store w =>
  match p with
  | Settle res => (res, w)
  | Query text values k =>
      let '(res, w1) := proxy_query text values store w in
      exec (k res) store w1
  | Run clientOrFactory body k =>
      let '(res, w1) := db_run clientOrFactory (exec body) store w in
      exec (k res) store w1
  end.

(** ** Interleaved chains *)

(** An asynchronous chain: the store [AsyncLocalStorage] holds for it, the
    code it has left to run, and the callers waiting for the [db.run] calls
    it is inside of, each with the store to go back to. *)
Record task : Type := mkTask {
  t_store : option nat;
  t_code : prog;
  t_stack : list (option nat * (outcome value -> prog));
}.

Definition record_at (store : option nat) (w : world) : option DrizzleContext :=
  match store with
  | Some r => Some (heap w !!! r)
  | None => None
  end.

(** What a step of a chain did: it entered a [db.run] that built [context]
    at reference [r]; or it made a query under [store], which found the
    record [before] there, left it as [after], resolved the client
    [resolved] and came back with [res]; or it left a [db.run]. *)
Inductive label : Type :=
| LEnter (input : value) (r : nat) (context : DrizzleContext)
| LQuery (store : option nat) (before after : option DrizzleContext)
         (resolved res : outcome value)
| LLeave (res : outcome value).

(** One step of a chain, up to its next suspension point; [None] once the
    chain has settled.  Entering [db.run] is lines 262-274 of driver.ts:
    [normalize], the fresh record, and the callback started under it. *)
Definition step_task (t : task) (w : world) : option (label * task * world) :=
  match t_code t with
  | Query text values k =>
      let '(res, w1) := proxy_query text values (t_store t) w in
      Some (LQuery (t_store t) (record_at (t_store t) w) (record_at (t_store t) w1)
                   (fst (getClientFromContext (t_store t) w)) res,
            mkTask (t_store t) (k res) (t_stack t), w1)
  | Run clientOrFactory body k =>
      let '(context, w1) := normalize clientOrFactory w in
      let '(r, w2) := alloc context w1 in
      Some (LEnter clientOrFactory r context,
            mkTask (Some r) body ((t_store t, k) :: t_stack t), w2)
  | Settle res =>
      match t_stack t with
      | [] => None
      | (store, k) :: rest => Some (LLeave res, mkTask store (k res) rest, w)
      end
  end.

(** The event loop picks a chain and runs it to its next suspension
    point. *)
Definition sys_step (i : nat) (ts : list task) (w : world)
  : option (label * list task * world) :=
  match ts !! i with
  | None => None
  | Some t =>
      match step_task t w with
      | None => None
      | Some (l, t', w') => Some (l, <[i := t']> ts, w')
      end
  end.

(** A schedule names the chain to resume at each turn; a turn given to a
    settled chain does nothing.  The result is what happened, by chain, and
    the state reached. *)
Fixpoint run_schedule (sched : list nat) (ts : list task) (w : world)
  : list (nat * label) * (list task * world) :=
  match sched with
  | [] => ([], (ts, w))
  | i :: rest =>
      match sys_step i ts w with
      | None => run_schedule rest ts w
      | Some (l, ts', w') =>
          let '(tr, s) := run_schedule rest ts' w' in
          ((i, l) :: tr, s)
      end
  end.

(** Chains start outside every scope. *)
Definition initial (ps : list prog) : list task :=
  map (fun p => mkTask None p []) ps.

(** [mentions r l]: the step [l] established or read the record at [r]. *)
Definition mentions (r : nat) (l : label) : bool :=
  match l with
  | LEnter _ r' _ => Nat.eqb r r'
  | LQuery (Some r') _ _ _ _ => Nat.eqb r r'
  | _ => false
  end.

(** The record at [r] as the last step that mentions [r] left it. *)
Definition left_by (l : label) : option DrizzleContext :=
  match l with
  | LEnter _ _ context => Some context
  | LQuery _ _ after _ _ => after
  | LLeave _ => None
  end.

Definition leaves (r : nat) (acc : option DrizzleContext) (il : nat * label)
  : option DrizzleContext :=
  if mentions r (snd il) then left_by (snd il) else acc.

Definition last_left (r : nat) (tr : list (nat * label)) : option DrizzleContext :=
  fold_left (leaves r) tr None.

(** The [db.run] calls chain [i] is inside of, innermost first, read off
    the steps taken: entering pushes the record, leaving pops it. *)
Definition scopes_step (i : nat) (open : list nat) (il : nat * label) : list nat :=
  if Nat.eqb (fst il) i then
    match snd il with
    | LEnter _ r _ => r :: open
    | LQuery _ _ _ _ _ => open
    | LLeave _ => tail open
    end
  else open.

Definition open_scopes (i : nat) (tr : list (nat * label)) : list nat :=
  fold_left (scopes_step i) tr [].

End Driver.

(** ** Reading the log *)

Definition is_factory_call (f : nat) (ev : event) : bool :=
  match ev with
  | EvFactoryCall g _ => Nat.eqb f g
  | _ => false
  end.

Definition is_assignment (r : nat) (ev : event) : bool :=
  match ev with
  | EvAssignClient r' _ => Nat.eqb r r'
  | _ => false
  end.

(** How many times the factory [f] was called. *)
Definition factory_calls (f : nat) (l : list event) : nat :=
  length (filter (fun ev => is_factory_call f ev = true) l).

(** How many times [client] was assigned on the record at [r]. *)
Definition client_writes (r : nat) (l : list event) : nat :=
  length (filter (fun ev => is_assignment r ev = true) l).

(** [delegated_to c ev]: [ev] is a query handed to the client [c]. *)
Definition delegated_to (c : value) (ev : event) : Prop :=
  match ev with
  | EvClientQuery o _ _ _ => c = VObj o
  | _ => False
  end.

(** ** The entry point as the specification words it for a descriptor *)

(** The caller builds the pooled client from the descriptor itself and
    passes the built client to [db.run]. *)
Definition run_with_built_client {Ext : Type} `{RT : Runtime Ext} {T : Type}
    (connectionString : string) (callback : M (outcome T)) : M (outcome T) :=
  fun store w =>
  let '(c, w1) := new_Pool connectionString w in
  db_run c callback store w1.

(** ** A small world to run the driver in *)

Module Sample.

(** The outside world counts the calls made into it.  Pools get the
    identities 1000, 1001, ...; factory 0 builds client 7; factory 1 always
    throws; factory 2 returns [undefined]; factory 3 throws on a world that
    has not been called yet and builds client 9 afterwards; every client
    answers every query with the text it was asked. *)
#[global] Instance runtime : Runtime nat := {|
  pg_Pool_new _ e := (1000 + e, S e);
  call_function f e :=
    match f with
    | 0 => (Normal (VObj 7), S e)
    | 1 => (Abrupt (VStr "connect ECONNREFUSED"), S e)
    | 2 => (Normal VUndefined, S e)
    | _ => (match e with
            | 0 => Abrupt (VStr "connect ETIMEDOUT")
            | _ => Normal (VObj 9)
            end, S e)
    end;
  client_query _ text _ e := (Normal text, S e);
|}.

Definition w0 : world := mkWorld [] 0 [].

Definition select1 : value * value := (VStr "select 1", VUndefined).
Definition select2 : value * value := (VStr "select 2", VUndefined).

(** Worlds with one record: a client, a factory that throws at first, a
    factory that returns [undefined], and an empty record. *)
Definition w_client : world := mkWorld [mkContext (Some (VObj 7)) None] 0 [].
Definition w_empty : world := mkWorld [mkContext None None] 0 [].

(** One request that passes a descriptor, as in the Hono example. *)
Definition one_request : list prog :=
  [ Run (VStr "postgres://u:p@h/db")
        (Query (VStr "select 1") VUndefined Settle) Settle ].

(** Two requests in flight: the first passes the client 1 and makes two
    queries, the second passes the factory 0 and makes one. *)
Definition two_requests : list prog :=
  [ Run (VObj 1)
        (Query (VStr "select a") VUndefined
           (fun _ => Query (VStr "select b") VUndefined Settle))
        Settle;
    Run (VFun 0) (Query (VStr "select c") VUndefined Settle) Settle ].

(** Two chains that hold the same scope: one makes a query, the other
    enters a [db.run] of its own and makes a query there. *)
Definition two_in_scope : list task :=
  [ mkTask (Some 0) (Query (VStr "select 1") VUndefined Settle) [];
    mkTask (Some 0)
           (Run (VFun 0) (Query (VStr "select c") VUndefined Settle) Settle) [] ].


End Sample.

(** ** Counting what happened *)

Fixpoint count_where {A : Type} (p : A -> bool) (l : list A) : nat :=
  match l with
  | [] => 0
  | x :: rest => (if p x then 1 else 0) + count_where p rest
  end.

Definition is_pool_event (ev : event) : bool :=
  match ev with EvPoolNew _ _ => true | _ => false end.

Definition is_any_factory_call (ev : event) : bool :=
  match ev with EvFactoryCall _ _ => true | _ => false end.

Definition is_client_call (ev : event) : bool :=
  match ev with EvClientQuery _ _ _ _ => true | _ => false end.

(** Pools built, factories called and queries handed to clients. *)
Definition pools_built (l : list event) : nat := count_where is_pool_event l.
Definition factories_called (l : list event) : nat := count_where is_any_factory_call l.
Definition clients_called (l : list event) : nat := count_where is_client_call l.

(** Steps that are a query through the proxy, and steps that enter a
    [db.run] given a string. *)
Definition is_query_step (il : nat * label) : bool :=
  match snd il with LQuery _ _ _ _ _ => true | _ => false end.

Definition is_string_enter (il : nat * label) : bool :=
  match snd il with
  | LEnter input _ _ => String.eqb (typeof input) "string"
  | _ => false
  end.

(** ** Calling a client without the driver *)

(** The queries made on the client [o] itself, one after the other: what
    the caller gets and what becomes of the outside world. *)
Section Callers.

Context {Ext : Type} `{RT : Runtime Ext}.

Fixpoint direct_queries (o : nat)
    (qs : list (value * value)) (e : Ext) : list (outcome value) * Ext :=
  match qs with
  | [] => ([], e)
  | (text, values) :: rest =>
      let '(res, e1) := client_query o text values e in
      let '(out, e2) := direct_queries o rest e1 in
      (lift res :: out, e2)
  end.

(** The events those direct queries are: each a call of [o] with the text
    and the values of the query, and how it ended. *)
Fixpoint delegations (o : nat) (qs : list (value * value)) (e : Ext)
  : list event :=
  match qs with
  | [] => []
  | (text, values) :: rest =>
      let '(res, e1) := client_query o text values e in
      EvClientQuery o text values res :: delegations o rest e1
  end.


(** ** The middleware of the Hono example *)

(** [app.use((c, next) => db.run(c.env.DB.connectionString, next))]: every
    request runs the rest of its handling inside a [db.run] given the
    connection string of the binding. *)
Definition middleware {T : Type}
    (connectionString : string) (next : @M Ext (outcome T)) : @M Ext (outcome T) :=
  db_run (VStr connectionString) next.

(** Requests handled one after the other, each by [handle] applied to what
    the request asks. *)
Fixpoint serve {Q T : Type}
    (handle : Q -> @M Ext (outcome T)) (requests : list Q)
  : @M Ext (list (outcome T)) :=
  fun store w =>
  match requests with
  | [] => ([], w)
  | q :: rest =>
      let '(res, w1) := handle q store w in
      let '(out, w2) := serve handle rest store w1 in
      (res :: out, w2)
  end.

End Callers.

(** ** Building a database handle *)

(** The configuration, as driver.ts reads it: [casing], [logger], [schema]
    and [relations] are values as the caller wrote them, absent or not; the
    cache, when given, is a [Cache] object, known by its identity. *)
Record DrizzleConfig : Type := mkConfig {
  cfg_casing : option value;
  cfg_logger : option value;
  cfg_schema : option value;
  cfg_relations : option value;
  cfg_cache : option nat;
}.

(** The default [{}] of [config]. *)
Definition no_config : DrizzleConfig := mkConfig None None None None None.

(** [x === true] and [x === false]. *)
Definition is_bool (b : bool) (v : value) : bool :=
  match v with
  | VBool b' => Bool.eqb b b'
  | _ => false
  end.

(** What the constructors of drizzle-orm are given is all that is known of
    what they build. *)
Record PgDialect : Type := mkDialect { dialect_casing : value }.

Inductive Logger : Type :=
| DefaultLogger
| LoggerOf (v : value).

Inductive Relations : Type :=
| EmptyRelations
| RelationsOf (v : value).

Record RelationalSchema : Type := mkSchema {
  fullSchema : value;
  schema_tables : value;
  tableNamesMap : value;
}.

(** The client a session sends its queries to: one it was given, the empty
    object of [drizzle.mock], or [proxyClient]. *)
Inductive SessionClient : Type :=
| ClientOf (c : value)
| EmptyObject
| ProxyClient.

Record NodePgSession : Type := mkSession {
  session_client : SessionClient;
  session_dialect : PgDialect;
  session_relations : Relations;
  session_schema : option RelationalSchema;
  session_logger : Logger;
  session_cache : option nat;
}.

(** A [NodePgDatabase] with the fields driver.ts adds to it: [$client],
    absent when never assigned, [$cache], and whether it has [run]. *)
Record NodePgDatabase : Type := mkDatabase {
  db_dialect : PgDialect;
  db_session : NodePgSession;
  db_relations : Relations;
  db_schema : option RelationalSchema;
  db_client : option SessionClient;
  db_cache : option nat;
  db_has_run : bool;
}.

(** The two fields of a [Cache] object the driver touches. *)
Record Cache : Type := mkCache {
  onMutate : value;
  invalidate : value;
}.

(** [caches[k] = c] on the cache objects. *)
Definition store_cache (k : nat) (c : Cache) (caches : nat -> Cache) : nat -> Cache :=
  fun k' => if Nat.eqb k' k then c else caches k'.

(** What [drizzle] is called with: a connection string and maybe a
    configuration, or one object with [connection], [client] and the
    configuration. *)
Inductive DrizzleParams : Type :=
| ParamsString (connectionString : string) (config : option DrizzleConfig)
| ParamsObject (connection client : option value) (drizzleConfig : DrizzleConfig).

(** [V1.extractTablesRelationalConfig(schema, helpers)], of drizzle-orm: the
    tables and the map of their names. *)
Class DrizzleOrm : Type := {
  extractTablesRelationalConfig : value -> value * value;
}.

(** [new pg.Pool(config)] for a [PoolConfig] object. *)
Class PgPool (Ext : Type) : Type := {
  pg_Pool_of_config : value -> Ext -> nat * Ext;
}.

Section Handles.

Context {Ext : Type} `{RT : Runtime Ext} `{PP : PgPool Ext} `{ORM : DrizzleOrm}.

(** driver.ts, lines 68-73 and 212-217. *)
Definition choose_logger (config : DrizzleConfig) : Logger :=
  if is_bool true (get (cfg_logger config)) then DefaultLogger
  else if negb (is_bool false (get (cfg_logger config))) then
    LoggerOf (get (cfg_logger config))
  else LoggerOf VUndefined.

(** driver.ts, lines 75-86 and 219-230. *)
Definition choose_schema (config : DrizzleConfig) : option RelationalSchema :=
  if truthy (get (cfg_schema config)) then
    let tablesConfig := extractTablesRelationalConfig (get (cfg_schema config)) in
    Some (mkSchema (get (cfg_schema config)) (fst tablesConfig) (snd tablesConfig))
  else None.

(** [config.relations ?? {}]. *)
Definition choose_relations (config : DrizzleConfig) : Relations :=
  match get (cfg_relations config) with
  | VUndefined | VNull => EmptyRelations
  | v => RelationsOf v
  end.

(** driver.ts, lines 101-104 and 253-256, on the cache objects:
    [$cache.invalidate = config.cache?.onMutate] when there is a cache. *)
Definition set_invalidate (config : DrizzleConfig) (caches : nat -> Cache)
  : nat -> Cache :=
  match cfg_cache config with
  | Some k => store_cache k (mkCache (onMutate (caches k)) (onMutate (caches k))) caches
  | None => caches
  end.

(** driver.ts, lines 57-107. *)
Definition construct (c : SessionClient) (config : DrizzleConfig)
    (caches : nat -> Cache) : NodePgDatabase * (nat -> Cache) :=
  let dialect := mkDialect (get (cfg_casing config)) in
  let logger := choose_logger config in
  let schema := choose_schema config in
  let relations := choose_relations config in
  let session :=
    mkSession c dialect relations schema logger (cfg_cache config) in
  (mkDatabase dialect session relations schema (Some c) (cfg_cache config) false,
   set_invalidate config caches).

(** driver.ts, lines 109-155. *)
Definition drizzle (params : DrizzleParams) (e : Ext) (caches : nat -> Cache)
  : NodePgDatabase * Ext * (nat -> Cache) :=
  match params with
  | ParamsString s config =>
      let '(instance, e1) := pg_Pool_new s e in
      let '(db, caches1) :=
        construct (ClientOf (VObj instance)) (default no_config config) caches in
      (db, e1, caches1)
  | ParamsObject connection c drizzleConfig =>
      if truthy (get c) then
        let '(db, caches1) := construct (ClientOf (get c)) drizzleConfig caches in
        (db, e, caches1)
      else
        let '(instance, e1) :=
          if String.eqb (typeof (get connection)) "string"
          then pg_Pool_new (string_of (get connection)) e
          else pg_Pool_of_config (get connection) e in
        let '(db, caches1) :=
          construct (ClientOf (VObj instance)) drizzleConfig caches in
        (db, e1, caches1)
  end.

(** driver.ts, lines 205-278; the [run] it attaches is [db_run], and the
    [query] of the client it gives the session is [proxy_query]. *)
Definition constructWithContext (config : DrizzleConfig) (caches : nat -> Cache)
  : NodePgDatabase * (nat -> Cache) :=
  let dialect := mkDialect (get (cfg_casing config)) in
  let logger := choose_logger config in
  let schema := choose_schema config in
  let relations := choose_relations config in
  let session :=
    mkSession ProxyClient dialect relations schema logger (cfg_cache config) in
  (mkDatabase dialect session relations schema None (cfg_cache config) true,
   set_invalidate config caches).

(** driver.ts, lines 281-290 and 324-331. *)
Definition mock (config : option DrizzleConfig) (caches : nat -> Cache)
  : NodePgDatabase * (nat -> Cache) :=
  construct EmptyObject (default no_config config) caches.

Definition withContext (config : option DrizzleConfig) (caches : nat -> Cache)
  : NodePgDatabase * (nat -> Cache) :=
  constructWithContext (default no_config config) caches.

End Handles.

(** ** Handles in the sample world *)

Module SampleHandles.

(** Pools made from a [PoolConfig] get the identities 2000, 2001, ...; the
    tables of a schema and the map of their names are the schema itself. *)
#[global] Instance pool : PgPool nat := {|
  pg_Pool_of_config _ e := (2000 + e, S e);
|}.

#[global] Instance orm : DrizzleOrm := {|
  extractTablesRelationalConfig schema := (schema, schema);
|}.

(** A configuration with the default logger, a schema and the cache 3, and
    cache objects whose two fields hold different functions. *)
Definition cached_config : DrizzleConfig :=
  mkConfig None (Some (VBool true)) (Some (VObj 50)) None (Some 3).

Definition some_caches : nat -> Cache :=
  fun k => mkCache (VFun (10 + k)) (VFun (20 + k)).

End SampleHandles.

(** ** What is said of scopes and chains *)

(** An input [db.run] makes a usable record of: a string, from which it
    builds a pool, or a truthy value, which is a function or is taken as the
    client. *)
Definition usable_input (v : value) : bool :=
  String.eqb (typeof v) "string" || truthy v.

(** A program that only passes usable inputs to [db.run]. *)
Inductive well_called : prog -> Prop :=
| wc_settle res : well_called (Settle res)
| wc_query text values k :
    (forall res, well_called (k res)) -> well_called (Query text values k)
| wc_run input body k :
    usable_input input = true ->
    well_called body ->
    (forall res, well_called (k res)) ->
    well_called (Run input body k).

(** A record queries can be made under: it has a truthy client or a truthy
    factory. *)
Definition usable (context : DrizzleContext) : Prop :=
  truthy (get (client context)) = true \/ truthy (get (factory context)) = true.

(** The record [db.run] builds from [input], up to the identity of the
    pool. *)
Definition enters (input : value) (context : DrizzleContext) : Prop :=
  match input with
  | VStr _ => exists o, context = mkContext (Some (VObj o)) None
  | VFun _ => context = mkContext None (Some input)
  | _ => context = mkContext (Some input) None
  end.

(** [evolves c0 c]: the record built as [c0] may have become [c]; its
    factory is the one it was built with, and a truthy client it was built
    with is still the whole of it. *)
Definition evolves (c0 c : DrizzleContext) : Prop :=
  factory c = factory c0 /\ (truthy (get (client c0)) = true -> c = c0).

(** The stores a chain holds: the current one and those it goes back to. *)
Definition stores_of (t : task) : list (option nat) :=
  t_store t :: map fst (t_stack t).

(** Who established which record, and as what: read off the steps. *)
Definition owners : Type := nat -> option (nat * DrizzleContext).

Definition record_owner (i : nat) (l : label) (own : owners) : owners :=
  match l with
  | LEnter _ r context =>
      fun r' => if Nat.eqb r' r then Some (i, context) else own r'
  | _ => own
  end.

Section Invariants.

Context {Ext : Type} `{RT : Runtime Ext}.

(** Every record that has an owner is in the heap and has evolved from what
    it was built as, and every store a chain holds is a record that chain
    established. *)
Definition owned (own : owners) (ts : list task) (w : @world Ext) : Prop :=
  (forall r x, own r = Some x -> r < length (heap w))
  /\ (forall i t r, ts !! i = Some t -> In (Some r) (stores_of t) ->
        exists c0, own r = Some (i, c0))
  /\ (forall r i c0, own r = Some (i, c0) -> evolves c0 (heap w !!! r)).

(** Every chain has only well-called code left, and holds only stores whose
    record is usable. *)
Definition well_scoped (ts : list task) (w : @world Ext) : Prop :=
  forall i t, ts !! i = Some t ->
    well_called (t_code t)
    /\ (forall store k, In (store, k) (t_stack t) -> forall res, well_called (k res))
    /\ (forall r, In (Some r) (stores_of t) -> usable (heap w !!! r)).

(** [resolves_from c resolved]: [resolved] is what [getClientFromContext]
    makes of the record [c] by itself, in a world that holds no other
    record, for some state of the outside world; a truthy client of [c] in
    particular. *)
Definition resolves_from (c : DrizzleContext) (resolved : outcome value) : Prop :=
  (truthy (get (client c)) = true -> resolved = Ok (get (client c)))
  /\ exists e : Ext,
       resolved = fst (getClientFromContext (Some 0) (mkWorld [c] e [])).

(** What a step says of the record it mentions, given who owned what
    before it. *)
Definition step_sound (i : nat) (own : owners) (w : @world Ext) (l : label) : Prop :=
  match l with
  | LEnter input r context => own r = None /\ enters input context
  | LQuery (Some r) before _ resolved _ =>
      exists c0,
        own r = Some (i, c0)
        /\ before = Some (heap w !!! r)
        /\ evolves c0 (heap w !!! r)
        /\ resolves_from (heap w !!! r) resolved
  | LQuery None _ _ resolved _ => resolved = Err (CoreError msg_no_context)
  | LLeave _ => True
  end.

End Invariants.

(** * Properties *)

Section Resolution.

Context {Ext : Type} `{RT : Runtime Ext}.

Implicit Types (w : @world Ext) (r : nat) (c text values : value).

(** ** The three ways out of [getClientFromContext] inside a scope *)

Lemma getClient_cached r w :
  truthy (get (client (heap w !!! r))) = true ->
  getClientFromContext (Some r) w = (Ok (get (client (heap w !!! r))), w).
Proof. intros Hc. unfold getClientFromContext. simpl. now rewrite Hc. Qed.

Lemma getClient_factory r w f :
  truthy (get (client (heap w !!! r))) = false ->
  factory (heap w !!! r) = Some (VFun f) ->
  getClientFromContext (Some r) w =
    let '(res, e) := call_function f (ext w) in
    match res with
    | Normal c =>
        (Ok c, assign_client r c (with_ext e (EvFactoryCall f res) w))
    | Abrupt x =>
        (Err (Foreign x), with_ext e (EvFactoryCall f res) w)
    end.
Proof.
  intros Hc Hf. unfold getClientFromContext. simpl.
  rewrite Hc, Hf. simpl.
  destruct (call_function f (ext w)) as [[v|x] e]; reflexivity.
Qed.

Lemma getClient_neither r w :
  truthy (get (client (heap w !!! r))) = false ->
  truthy (get (factory (heap w !!! r))) = false ->
  getClientFromContext (Some r) w = (Err (CoreError msg_no_client_or_factory), w).
Proof. intros Hc Hf. unfold getClientFromContext. simpl. now rewrite Hc, Hf. Qed.


Lemma lookup_total_alloc (h : list DrizzleContext) context :
  (h ++ [context]) !!! length h = context.
Proof.
  rewrite list_lookup_total_alt, lookup_app_r by lia.
  now rewrite Nat.sub_diag.
Qed.

Lemma normalize_heap input w : heap (snd (normalize input w)) = heap w.
Proof.
  unfold normalize, new_Pool.
  destruct input; simpl; try reflexivity.
  destruct (pg_Pool_new s (ext w)); reflexivity.
Qed.

(** ** Queries outside every scope *)

(** C1. A query made through the proxy by a chain in which no [db.run] has
    established a scope fails with the error of driver.ts line 31, whose
    message tells the caller to call db.run(); nothing else happens: no
    record is read or written and no factory, pool or client is called,
    whatever earlier scopes left behind.  In particular a query made after
    a [db.run] has settled, and outside it, fails in this way and adds
    nothing to what that scope did. *)
Theorem query_outside_scope_fails text values w :
  proxy_query text values None w = (Err (CoreError msg_no_context), w)
  /\ contains "call db.run()" msg_no_context = true
  /\ forall input body,
       exec (Run input body (fun _ => Query text values Settle)) None w =
       (Err (CoreError msg_no_context), snd (db_run input (exec body) None w)).
Proof.
  split; [reflexivity|]. split; [vm_compute; reflexivity|].
  intros input body. simpl.
  destruct (db_run input (exec body) None w) as [res w1]. reflexivity.
Qed.

(** ** The entry point *)

(** C4. What [db.run] hands to its callback, by the kind of its input.  For
    a string the pool is built from it before the callback starts and is
    the client of the record; for a function the record has it as factory
    and no client, and nothing has been called or built when the callback
    starts; any other input is the client of the record as it is.  The
    record is a new one, and the callback runs with it as its store. *)
Theorem run_normalizes_input {T : Type} input (callback : M (outcome T)) store w :
  db_run input callback store w =
  callback (Some (length (heap w)))
    match input with
    | VStr s =>
        let '(o, e) := pg_Pool_new s (ext w) in
        mkWorld (heap w ++ [mkContext (Some (VObj o)) None]) e
                (log w ++ [EvPoolNew s o])
    | VFun f =>
        mkWorld (heap w ++ [mkContext None (Some (VFun f))]) (ext w) (log w)
    | other =>
        mkWorld (heap w ++ [mkContext (Some other) None]) (ext w) (log w)
    end.
Proof.
  unfold db_run, normalize, asyncLocalStorage_run, alloc, new_Pool.
  destruct input; simpl; try reflexivity.
  destruct (pg_Pool_new s (ext w)) as [o e]. reflexivity.
Qed.

(** C5. [db.run] ends as its callback ends: it runs the callback once,
    under the record it built, and the outcome of the callback, value or
    failure, is the outcome of [db.run], with the world as the callback
    left it. *)
Theorem run_returns_what_callback_returns {T : Type} input
    (callback : M (outcome T)) store w :
  exists context w1,
    normalize input w = (context, w1)
    /\ db_run input callback store w =
       callback (Some (length (heap w)))
                (mkWorld (heap w ++ [context]) (ext w1) (log w1))
    /\ (forall x w2,
          callback (Some (length (heap w)))
                   (mkWorld (heap w ++ [context]) (ext w1) (log w1)) = (Ok x, w2) ->
          db_run input callback store w = (Ok x, w2))
    /\ (forall e w2,
          callback (Some (length (heap w)))
                   (mkWorld (heap w ++ [context]) (ext w1) (log w1)) = (Err e, w2) ->
          db_run input callback store w = (Err e, w2)).
Proof.
  destruct (normalize input w) as [context w1] eqn:Hn.
  exists context, w1. split; [reflexivity|].
  assert (Hrun : db_run input callback store w =
                 callback (Some (length (heap w)))
                          (mkWorld (heap w ++ [context]) (ext w1) (log w1))).
  { unfold db_run, asyncLocalStorage_run, alloc. rewrite Hn.
    pose proof (normalize_heap input w) as Hh. rewrite Hn in Hh. simpl in Hh.
    now rewrite Hh. }
  split; [exact Hrun|]. split; intros ? ? Hcb; now rewrite Hrun.
Qed.

(** ** Delegation *)

(** C6. In a scope whose record holds a truthy client, a query through the
    proxy is the member call [client.query(text, values)] on that client,
    with the text and the values it was given, and nothing more: the record
    is left as it is and no factory is called.  When the client is an
    object the outcome is what the client answered, a value or whatever it
    threw, unchanged. *)
Theorem query_delegates_to_client r w text values :
  truthy (get (client (heap w !!! r))) = true ->
  proxy_query text values (Some r) w =
    invoke_query (get (client (heap w !!! r))) text values w
  /\ heap (snd (proxy_query text values (Some r) w)) = heap w
  /\ forall o, get (client (heap w !!! r)) = VObj o ->
       proxy_query text values (Some r) w =
       (lift (fst (client_query o text values (ext w))),
        mkWorld (heap w) (snd (client_query o text values (ext w)))
                (log w ++ [EvClientQuery o text values
                             (fst (client_query o text values (ext w)))])).
Proof.
  intros Hc.
  assert (Hq : proxy_query text values (Some r) w =
               invoke_query (get (client (heap w !!! r))) text values w).
  { unfold proxy_query. now rewrite (getClient_cached r w Hc). }
  split; [exact Hq|]. split.
  - rewrite Hq. unfold invoke_query.
    destruct (get (client (heap w !!! r))); try reflexivity.
    destruct (client_query o text values (ext w)); reflexivity.
  - intros o Ho. rewrite Hq, Ho. unfold invoke_query, with_ext.
    destruct (client_query o text values (ext w)); reflexivity.
Qed.

(** ** Descriptors *)

(** C8. Passing a connection string to [db.run] is the same computation as
    building the pool from that string first and passing the pool: the
    callback starts under the same record in the same world, so the same
    queries reach the same client and the outcome and the final world are
    the same. *)
Theorem run_string_is_run_built_client {T : Type} s (callback : M (outcome T)) store w :
  db_run (VStr s) callback store w = run_with_built_client s callback store w.
Proof.
  unfold run_with_built_client, db_run, normalize. simpl.
  destruct (new_Pool s w) as [c w1] eqn:Hp.
  unfold new_Pool in Hp. destruct (pg_Pool_new s (ext w)) as [o e].
  injection Hp as <- <-. reflexivity.
Qed.

(** ** Reading the log *)

Lemma factory_calls_app f (l1 l2 : list event) :
  factory_calls f (l1 ++ l2) = factory_calls f l1 + factory_calls f l2.
Proof. unfold factory_calls. now rewrite filter_app, length_app. Qed.

Lemma client_writes_app r (l1 l2 : list event) :
  client_writes r (l1 ++ l2) = client_writes r l1 + client_writes r l2.
Proof. unfold client_writes. now rewrite filter_app, length_app. Qed.

Lemma factory_calls_delegations f c (l : list event) :
  Forall (delegated_to c) l -> factory_calls f l = 0.
Proof.
  induction 1 as [|ev l Hev _ IH]; [reflexivity|].
  destruct ev; try contradiction.
  change (EvClientQuery o text values res :: l)
    with ([EvClientQuery o text values res] ++ l).
  rewrite factory_calls_app, IH. reflexivity.
Qed.

Lemma client_writes_delegations r c (l : list event) :
  Forall (delegated_to c) l -> client_writes r l = 0.
Proof.
  induction 1 as [|ev l Hev _ IH]; [reflexivity|].
  destruct ev; try contradiction.
  change (EvClientQuery o text values res :: l)
    with ([EvClientQuery o text values res] ++ l).
  rewrite client_writes_app, IH. reflexivity.
Qed.

Lemma factory_calls_one f res : factory_calls f [EvFactoryCall f res] = 1.
Proof. unfold factory_calls. cbn. rewrite Nat.eqb_refl. reflexivity. Qed.

Lemma client_writes_one r c : client_writes r [EvAssignClient r c] = 1.
Proof. unfold client_writes. cbn. rewrite Nat.eqb_refl. reflexivity. Qed.

(** ** Queries under a cached client *)

(** The member call leaves the records alone and adds at most the one
    delegation to the log. *)
Lemma invoke_query_effect c text values w :
  heap (snd (invoke_query c text values w)) = heap w
  /\ exists evs, log (snd (invoke_query c text values w)) = log w ++ evs
                /\ Forall (delegated_to c) evs.
Proof.
  unfold invoke_query. destruct c;
    try (split; [reflexivity|]; exists []; split;
         [simpl; now rewrite app_nil_r | constructor]).
  destruct (client_query o text values (ext w)) as [res e]. simpl.
  split; [reflexivity|]. eexists. split; [reflexivity|].
  constructor; [reflexivity|constructor].
Qed.

Lemma query_all_cached qs r w c :
  client (heap w !!! r) = Some c -> truthy c = true ->
  heap (snd (query_all qs (Some r) w)) = heap w
  /\ exists evs, log (snd (query_all qs (Some r) w)) = log w ++ evs
                /\ Forall (delegated_to c) evs.
Proof.
  revert w. induction qs as [|[text values] qs IH]; intros w Hc Ht.
  - simpl. split; [reflexivity|]. exists []. split; [now rewrite app_nil_r|constructor].
  - simpl.
    assert (Htr : truthy (get (client (heap w !!! r))) = true) by now rewrite Hc.
    unfold proxy_query. rewrite (getClient_cached r w Htr). rewrite Hc. simpl.
    destruct (invoke_query_effect c text values w) as (Hh & evs & Hl & Hd).
    destruct (invoke_query c text values w) as [res w1]. simpl in Hh, Hl.
    assert (Hc1 : client (heap w1 !!! r) = Some c) by now rewrite Hh.
    destruct (IH w1 Hc1 Ht) as (Hh2 & evs2 & Hl2 & Hd2).
    destruct (query_all qs (Some r) w1) as [out w2]. simpl in *.
    split; [congruence|]. exists (evs ++ evs2).
    split; [rewrite Hl2, Hl; now rewrite app_assoc | now apply Forall_app].
Qed.

(** ** Scopes with a factory *)

Lemma db_run_factory {T : Type} f (callback : M (outcome T)) store w :
  db_run (VFun f) callback store w =
  callback (Some (length (heap w)))
           (mkWorld (heap w ++ [mkContext None (Some (VFun f))]) (ext w) (log w)).
Proof. reflexivity. Qed.

Lemma insert_alloc (h : list DrizzleContext) context context' :
  <[length h := context']> (h ++ [context]) = h ++ [context'].
Proof.
  rewrite insert_app_r_alt by lia. now rewrite Nat.sub_diag.
Qed.

(** The first query of a scope whose factory builds a truthy client: the
    factory is called, its result is stored, and the query goes to it. *)
Lemma proxy_query_builds r w f c e1 text values :
  truthy (get (client (heap w !!! r))) = false ->
  factory (heap w !!! r) = Some (VFun f) ->
  call_function f (ext w) = (Normal c, e1) ->
  proxy_query text values (Some r) w =
  invoke_query c text values
    (assign_client r c (with_ext e1 (EvFactoryCall f (Normal c)) w)).
Proof.
  intros Hc Hf Hcall. unfold proxy_query.
  rewrite (getClient_factory r w f Hc Hf), Hcall. reflexivity.
Qed.

(** Under a record whose client is the object [o], the queries are the
    calls of [o], one for one: same outcomes, same outside world, and the
    log grows by exactly those calls. *)
Lemma query_all_delegates qs : forall r w o,
  client (heap w !!! r) = Some (VObj o) ->
  query_all qs (Some r) w =
  (fst (direct_queries o qs (ext w)),
   mkWorld (heap w) (snd (direct_queries o qs (ext w)))
           (log w ++ delegations o qs (ext w))).
Proof.
  induction qs as [|[text values] qs IH]; intros r w o Hc.
  { cbn [query_all direct_queries delegations fst snd]. rewrite app_nil_r.
    now destruct w. }
  cbn [query_all direct_queries delegations]. unfold proxy_query.
  rewrite getClient_cached by now rewrite Hc.
  rewrite Hc. cbn [get invoke_query].
  destruct (client_query o text values (ext w)) as [res e1].
  rewrite (IH r (with_ext e1 (EvClientQuery o text values res) w) o Hc).
  unfold with_ext. cbn [heap ext log].
  destruct (direct_queries o qs e1) as [out e2]. cbn [fst snd].
  now rewrite <- app_assoc.
Qed.

(** Under a record whose client is truthy and is not an object, every
    query fails on the member call and nothing happens. *)
Lemma query_all_not_object qs : forall r w c,
  client (heap w !!! r) = Some c -> truthy c = true ->
  (forall o, c <> VObj o) ->
  query_all qs (Some r) w = (map (fun _ => Err TypeError) qs, w).
Proof.
  induction qs as [|[text values] qs IH]; intros r w c Hc Ht Hno; [reflexivity|].
  cbn [query_all map]. unfold proxy_query.
  rewrite getClient_cached by now rewrite Hc.
  rewrite Hc. cbn [get].
  assert (Hinv : invoke_query c text values w = (Err TypeError, w)).
  { destruct c; try reflexivity. now destruct (Hno o). }
  rewrite Hinv, (IH r w c Hc Ht Hno). reflexivity.
Qed.

(** C2, as the code has it.  In a scope that [db.run] established from a
    factory, for one query or more, when the call of the factory made by
    the first query returns a truthy value [c], and with the factory, as
    all foreign code here, leaving the record it is called on alone: the
    record ends with [c] as its client next to the factory and nothing else
    in the heap changed; the log grows by the call of the factory, the
    assignment of [c] to the client field, and then only queries handed to
    [c]; so the factory was called once and the field was written once,
    however many queries were made.  When [c] is an object, every query of
    the callback, the first included, is a call of [c] with the text and
    the values of that query: the callback gets, in order, what [c]
    answers or throws, and the log holds exactly those calls after the
    call of the factory and the assignment.  When [c] is not an object,
    every query fails on the member call and nothing more is logged. *)
Theorem factory_called_once f c e1 q rest store w :
  call_function f (ext w) = (Normal c, e1) ->
  truthy c = true ->
  let r := length (heap w) in
  let w' := snd (db_run (VFun f) (queries (q :: rest)) store w) in
  heap w' = heap w ++ [mkContext (Some c) (Some (VFun f))]
  /\ (exists evs,
        log w' = log w ++ EvFactoryCall f (Normal c) :: EvAssignClient r c :: evs
        /\ Forall (delegated_to c) evs)
  /\ factory_calls f (log w') = factory_calls f (log w) + 1
  /\ client_writes r (log w') = client_writes r (log w) + 1
  /\ (forall o, c = VObj o ->
        fst (db_run (VFun f) (queries (q :: rest)) store w) =
          Ok (fst (direct_queries o (q :: rest) e1))
        /\ ext w' = snd (direct_queries o (q :: rest) e1)
        /\ log w' =
           log w ++ EvFactoryCall f (Normal c) :: EvAssignClient r c
                 :: delegations o (q :: rest) e1)
  /\ ((forall o, c <> VObj o) ->
        fst (db_run (VFun f) (queries (q :: rest)) store w) =
          Ok (map (fun _ => Err TypeError) (q :: rest))
        /\ ext w' = e1
        /\ log w' = log w ++ [EvFactoryCall f (Normal c); EvAssignClient r c]).
Proof.
  intros Hcall Ht r w'.
  set (ws := mkWorld (heap w ++ [mkContext None (Some (VFun f))]) (ext w) (log w)).
  set (w1 := assign_client r c (with_ext e1 (EvFactoryCall f (Normal c)) ws)).
  assert (Hrec : heap ws !!! r = mkContext None (Some (VFun f)))
    by apply lookup_total_alloc.
  assert (Hh1 : heap w1 = heap w ++ [mkContext (Some c) (Some (VFun f))]).
  { change (heap w1)
      with (<[r := mkContext (Some c) (factory (heap ws !!! r))]> (heap ws)).
    rewrite Hrec. subst r. apply insert_alloc. }
  assert (Hl1 : log w1 = log w ++ [EvFactoryCall f (Normal c); EvAssignClient r c]).
  { subst w1. unfold assign_client, with_ext. simpl. now rewrite <- app_assoc. }
  assert (He1 : ext w1 = e1) by reflexivity.
  assert (Hc1 : client (heap w1 !!! r) = Some c).
  { rewrite Hh1. subst r. now rewrite lookup_total_alloc. }
  assert (Hrun : db_run (VFun f) (queries (q :: rest)) store w =
                 queries (q :: rest) (Some r) w1).
  { rewrite db_run_factory. fold r. fold ws.
    destruct q as [text values]. unfold queries. cbn [query_all].
    rewrite (proxy_query_builds r ws f c e1 text values);
      [|now rewrite Hrec|now rewrite Hrec|exact Hcall].
    fold w1. unfold proxy_query at 1.
    rewrite (getClient_cached r w1) by now rewrite Hc1.
    now rewrite Hc1. }
  assert (Hmain : heap w' = heap w ++ [mkContext (Some c) (Some (VFun f))]
    /\ exists evs,
        log w' = log w ++ EvFactoryCall f (Normal c) :: EvAssignClient r c :: evs
        /\ Forall (delegated_to c) evs).
  { subst w'. rewrite Hrun. unfold queries.
    destruct (query_all_cached (q :: rest) r w1 c Hc1 Ht) as (Hh3 & evs3 & Hl3 & Hd3).
    destruct (query_all (q :: rest) (Some r) w1) as [out w3]. cbn [snd] in *.
    split; [congruence|]. exists evs3. split; [|exact Hd3].
    rewrite Hl3, Hl1. now rewrite <- app_assoc. }
  destruct Hmain as (Hh & evs & Hl & Hd).
  split; [exact Hh|]. split; [now exists evs|].
  split; [|split; [|split]].
  - rewrite Hl.
    change (EvFactoryCall f (Normal c) :: EvAssignClient r c :: evs)
      with ([EvFactoryCall f (Normal c)] ++ [EvAssignClient r c] ++ evs).
    rewrite !factory_calls_app, factory_calls_one.
    rewrite (factory_calls_delegations f c evs Hd).
    change (factory_calls f [EvAssignClient r c]) with 0. lia.
  - rewrite Hl.
    change (EvFactoryCall f (Normal c) :: EvAssignClient r c :: evs)
      with ([EvFactoryCall f (Normal c)] ++ [EvAssignClient r c] ++ evs).
    rewrite !client_writes_app, client_writes_one.
    rewrite (client_writes_delegations r c evs Hd).
    change (client_writes r [EvFactoryCall f (Normal c)]) with 0. lia.
  - intros o Ho. subst w'. rewrite Hrun. unfold queries.
    rewrite (query_all_delegates (q :: rest) r w1 o) by now rewrite Hc1, Ho.
    rewrite He1, Hl1. cbn [fst snd ext log].
    split; [reflexivity|]. split; [reflexivity|].
    now rewrite <- app_assoc.
  - intros Hno. subst w'. rewrite Hrun. unfold queries.
    rewrite (query_all_not_object (q :: rest) r w1 c Hc1 Ht Hno).
    cbn [fst snd]. now repeat split.
Qed.




Lemma lookup_total_insert_same (h : list DrizzleContext) r context :
  r < length h -> <[r := context]> h !!! r = context.
Proof.
  intros Hr. rewrite list_lookup_total_alt, list_lookup_insert_eq by exact Hr.
  reflexivity.
Qed.




End Resolution.

Section Chains.

Context {Ext : Type} `{RT : Runtime Ext}.

Implicit Types (w : @world Ext) (r : nat) (t : task) (ts : list task)
  (l : label) (own : owners).

(** ** What one query does to the records *)

(** A query leaves the heap as it is, or writes the client of the record
    of its own store, and only when that record had no truthy client and
    had a truthy factory. *)
Lemma proxy_query_heap text values store w :
  heap (snd (proxy_query text values store w)) = heap w
  \/ exists r c,
       store = Some r
       /\ truthy (get (client (heap w !!! r))) = false
       /\ truthy (get (factory (heap w !!! r))) = true
       /\ heap (snd (proxy_query text values store w)) =
          <[r := mkContext (Some c) (factory (heap w !!! r))]> (heap w).
Proof.
  destruct store as [r|]; [|now left].
  destruct (truthy (get (client (heap w !!! r)))) eqn:Hc.
  { left. unfold proxy_query. rewrite (getClient_cached r w Hc).
    apply invoke_query_effect. }
  destruct (truthy (get (factory (heap w !!! r)))) eqn:Hf.
  2:{ left. unfold proxy_query. now rewrite (getClient_neither r w Hc Hf). }
  destruct (factory (heap w !!! r)) as [[| | | | | |f|]|] eqn:Hfac;
    try (left; unfold proxy_query, getClientFromContext; cbn [getStore fst];
         rewrite Hc, Hfac; cbn [get]; cbn [get] in Hf; rewrite ?Hf;
         reflexivity).
  unfold proxy_query. rewrite (getClient_factory r w f Hc Hfac).
  destruct (call_function f (ext w)) as [[c|x] e]; [|now left].
  right. exists r, c.
  split; [reflexivity|]. split; [exact Hc|]. split; [now rewrite Hfac|].
  destruct (invoke_query_effect c text values
              (assign_client r c (with_ext e (EvFactoryCall f (Normal c)) w)))
    as (Hh & _).
  rewrite Hh. reflexivity.
Qed.

Lemma proxy_query_length text values store w :
  length (heap (snd (proxy_query text values store w))) = length (heap w).
Proof.
  destruct (proxy_query_heap text values store w) as [->|(r & c & _ & _ & _ & ->)];
    [reflexivity|apply length_insert].
Qed.

Lemma lookup_total_insert_other (h : list DrizzleContext) r r' context :
  r <> r' -> <[r := context]> h !!! r' = h !!! r'.
Proof.
  intros Hne. now rewrite !list_lookup_total_alt, list_lookup_insert_ne.
Qed.

(** Records other than the one of the store are not touched. *)
Lemma proxy_query_frame text values store w r :
  store <> Some r ->
  heap (snd (proxy_query text values store w)) !!! r = heap w !!! r.
Proof.
  intros Hne.
  destruct (proxy_query_heap text values store w) as [->|(r' & c & -> & _ & _ & ->)];
    [reflexivity|].
  apply lookup_total_insert_other. congruence.
Qed.

(** A usable record stays usable, whoever makes the query. *)
Lemma proxy_query_usable text values store w r :
  usable (heap w !!! r) ->
  usable (heap (snd (proxy_query text values store w)) !!! r).
Proof.
  intros Hu.
  destruct (proxy_query_heap text values store w)
    as [->|(r' & c & -> & Hc & Hf & ->)]; [exact Hu|].
  destruct (decide (r' = r)) as [->|Hne].
  - destruct (decide (r < length (heap w))) as [Hlt|Hge].
    + rewrite lookup_total_insert_same by exact Hlt. right. exact Hf.
    + rewrite list_insert_ge by lia. exact Hu.
  - now rewrite lookup_total_insert_other.
Qed.

(** A record keeps evolving from what it was built as. *)
Lemma proxy_query_evolves text values store w r c0 :
  evolves c0 (heap w !!! r) ->
  evolves c0 (heap (snd (proxy_query text values store w)) !!! r).
Proof.
  intros [Hfac Hcl].
  destruct (proxy_query_heap text values store w)
    as [->|(r' & c & -> & Hc & Hf & ->)]; [now split|].
  destruct (decide (r' = r)) as [->|Hne].
  - destruct (decide (r < length (heap w))) as [Hlt|Hge].
    + rewrite lookup_total_insert_same by exact Hlt. split; [exact Hfac|].
      intros Ht. rewrite (Hcl Ht) in Hc. congruence.
    + rewrite list_insert_ge by lia. now split.
  - rewrite lookup_total_insert_other by exact Hne. now split.
Qed.

(** Under a usable record the proxy does not raise an error of its own. *)
Lemma proxy_query_no_core_error text values r w message :
  usable (heap w !!! r) ->
  fst (proxy_query text values (Some r) w) <> Err (CoreError message).
Proof.
  assert (Hinv : forall c w', fst (invoke_query c text values w') <>
                              Err (CoreError message)).
  { intros c w'. unfold invoke_query. destruct c; simpl; try discriminate.
    destruct (client_query o text values (ext w')) as [[v|x] e]; discriminate. }
  intros Hu. unfold proxy_query, getClientFromContext. simpl.
  destruct (truthy (get (client (heap w !!! r)))) eqn:Hc; [apply Hinv|].
  destruct Hu as [Hu|Hu]; [congruence|]. rewrite Hu.
  unfold call. destruct (get (factory (heap w !!! r))); simpl; try discriminate.
  destruct (call_function f (ext w)) as [[c|x] e]; simpl;
    [apply Hinv|discriminate].
Qed.

(** The client of a query is resolved from the record of its store and
    from the outside world, and from nothing else in the world. *)
Lemma getClient_local r w :
  fst (getClientFromContext (Some r) w) =
  fst (getClientFromContext (Some 0) (mkWorld [heap w !!! r] (ext w) [])).
Proof.
  unfold getClientFromContext. cbn [getStore fst heap].
  change ([heap w !!! r] !!! 0) with (heap w !!! r).
  destruct (truthy (get (client (heap w !!! r)))); [reflexivity|].
  destruct (truthy (get (factory (heap w !!! r)))); [|reflexivity].
  unfold call. destruct (get (factory (heap w !!! r))); try reflexivity.
  cbn [ext]. destruct (call_function f (ext w)) as [[c|x] e]; reflexivity.
Qed.

(** What the client of a query is resolved from. *)
Lemma getClient_resolved store w :
  match store with
  | None => fst (getClientFromContext store w) = Err (CoreError msg_no_context)
  | Some r =>
      truthy (get (client (heap w !!! r))) = true ->
      fst (getClientFromContext store w) = Ok (get (client (heap w !!! r)))
  end.
Proof.
  destruct store as [r|]; [|reflexivity].
  intros Hc. now rewrite getClient_cached.
Qed.

(** ** What one step of a chain is *)

Lemma step_task_cases t w l t' w' :
  step_task t w = Some (l, t', w') ->
  (exists text values k,
     t_code t = Query text values k
     /\ l = LQuery (t_store t) (record_at (t_store t) w) (record_at (t_store t) w')
                   (fst (getClientFromContext (t_store t) w))
                   (fst (proxy_query text values (t_store t) w))
     /\ w' = snd (proxy_query text values (t_store t) w)
     /\ t' = mkTask (t_store t) (k (fst (proxy_query text values (t_store t) w)))
                    (t_stack t))
  \/ (exists input body k context w1,
        t_code t = Run input body k
        /\ normalize input w = (context, w1)
        /\ l = LEnter input (length (heap w)) context
        /\ w' = mkWorld (heap w ++ [context]) (ext w1) (log w1)
        /\ t' = mkTask (Some (length (heap w))) body ((t_store t, k) :: t_stack t))
  \/ (exists res store k rest,
        t_code t = Settle res
        /\ t_stack t = (store, k) :: rest
        /\ l = LLeave res /\ w' = w /\ t' = mkTask store (k res) rest).
Proof.
  unfold step_task. destruct (t_code t) as [res|text values k|input body k].
  - destruct (t_stack t) as [|[store k] rest]; [discriminate|].
    intros [= <- <- <-]. right. right. exists res, store, k, rest. repeat split.
  - destruct (proxy_query text values (t_store t) w) as [res w1] eqn:Hq.
    intros [= <- <- <-]. left. exists text, values, k. rewrite Hq. repeat split.
  - destruct (normalize input w) as [context w1] eqn:Hn.
    pose proof (normalize_heap input w) as Hh. rewrite Hn in Hh. simpl in Hh.
    unfold alloc. rewrite Hh.
    intros [= <- <- <-]. right. left. exists input, body, k, context, w1.
    repeat split. exact Hn.
Qed.

Lemma sys_step_cases i ts w l ts' w' :
  sys_step i ts w = Some (l, ts', w') ->
  exists t t', ts !! i = Some t /\ step_task t w = Some (l, t', w')
               /\ ts' = <[i := t']> ts.
Proof.
  unfold sys_step. destruct (ts !! i) as [t|]; [|discriminate].
  destruct (step_task t w) as [[[l0 t0] w0]|] eqn:Hs; [|discriminate].
  intros [= <- <- <-]. exists t, t0. repeat split. exact Hs.
Qed.

Lemma lookup_stepped i ts t t' j t0 :
  ts !! i = Some t -> <[i := t']> ts !! j = Some t0 ->
  (j = i /\ t0 = t') \/ (j <> i /\ ts !! j = Some t0).
Proof.
  intros Hi Hj. destruct (decide (j = i)) as [->|Hne].
  - left. split; [reflexivity|].
    rewrite list_lookup_insert_eq in Hj by (eapply lookup_lt_Some; eassumption).
    congruence.
  - right. split; [assumption|]. now rewrite list_lookup_insert_ne in Hj.
Qed.

Lemma normalize_enters input w :
  enters input (fst (normalize input w)).
Proof.
  unfold normalize, new_Pool. destruct input; simpl; try reflexivity.
  destruct (pg_Pool_new s (ext w)) as [o e]. now exists o.
Qed.

Lemma normalize_usable input w :
  usable_input input = true -> usable (fst (normalize input w)).
Proof.
  unfold usable_input, normalize, new_Pool, usable.
  destruct input; simpl; intros Hu; try discriminate; try (now left); try (now right).
  destruct (pg_Pool_new s (ext w)) as [o e]. now left.
Qed.

Lemma usable_in_range (h : list DrizzleContext) r :
  usable (h !!! r) -> r < length h.
Proof.
  intros Hu. destruct (decide (r < length h)) as [|Hge]; [assumption|].
  rewrite list_lookup_total_alt, lookup_ge_None_2 in Hu by lia.
  destruct Hu; discriminate.
Qed.

Lemma lookup_total_alloc_other (h : list DrizzleContext) context r :
  r <> length h -> (h ++ [context]) !!! r = h !!! r.
Proof.
  intros Hne. destruct (decide (r < length h)) as [Hlt|Hge].
  - now apply lookup_total_app_l.
  - rewrite !list_lookup_total_alt.
    rewrite !lookup_ge_None_2; [reflexivity|lia|rewrite length_app; simpl; lia].
Qed.

(** ** Usable scopes stay usable *)

Lemma msg_distinct : msg_no_client_or_factory <> msg_no_context.
Proof. discriminate. Qed.

Lemma well_scoped_step i ts w l ts' w' :
  well_scoped ts w -> sys_step i ts w = Some (l, ts', w') ->
  well_scoped ts' w'
  /\ forall store before after resolved res,
       l = LQuery store before after resolved res ->
       res <> Err (CoreError msg_no_client_or_factory).
Proof.
  intros Hws Hstep.
  destruct (sys_step_cases _ _ _ _ _ _ Hstep) as (t & t' & Hi & Ht & ->).
  destruct (Hws i t Hi) as (Hcode & Hstack & Hstores).
  destruct (step_task_cases _ _ _ _ _ Ht)
    as [(text & values & k & Hc & -> & -> & ->)
       |[(input & body & k & context & w1 & Hc & Hn & -> & -> & ->)
        |(res & store & k & rest & Hc & Hst & -> & -> & ->)]].
  - (* a query *)
    rewrite Hc in Hcode. inversion Hcode as [|? ? ? Hk|]; subst.
    split.
    + intros j t0 Hj.
      destruct (lookup_stepped _ _ _ _ _ _ Hi Hj) as [[-> ->]|[Hne Hj0]].
      * cbn [t_code t_stack]. split; [apply Hk|]. split; [exact Hstack|].
        intros r Hr. apply proxy_query_usable. now apply Hstores.
      * destruct (Hws j t0 Hj0) as (Hcode0 & Hstack0 & Hstores0).
        split; [exact Hcode0|]. split; [exact Hstack0|].
        intros r Hr. apply proxy_query_usable. now apply Hstores0.
    + intros store before after resolved res [= <- _ _ _ <-].
      destruct (t_store t) as [r|] eqn:Hs.
      * apply proxy_query_no_core_error. apply Hstores. now left.
      * cbn. intros [= Hm].
  - (* entering db.run *)
    rewrite Hc in Hcode. inversion Hcode as [| |? ? ? Hin Hbody Hk]; subst.
    assert (Hctx : usable context).
    { pose proof (normalize_usable input w Hin) as Hu. now rewrite Hn in Hu. }
    assert (Hkeep : forall r, usable (heap w !!! r) ->
                              usable ((heap w ++ [context]) !!! r)).
    { intros r Hu. rewrite lookup_total_alloc_other; [exact Hu|].
      apply usable_in_range in Hu. lia. }
    split; [|discriminate].
    intros j t0 Hj.
    destruct (lookup_stepped _ _ _ _ _ _ Hi Hj) as [[-> ->]|[Hne Hj0]].
    + cbn [t_code t_stack heap]. split; [exact Hbody|]. split.
      * intros store k0 [[= <- <-]|Hin0]; [exact Hk|]. now apply (Hstack store k0).
      * intros r [[= <-]|Hr].
        -- rewrite lookup_total_alloc. exact Hctx.
        -- apply Hkeep, Hstores. exact Hr.
    + destruct (Hws j t0 Hj0) as (Hcode0 & Hstack0 & Hstores0).
      split; [exact Hcode0|]. split; [exact Hstack0|].
      intros r Hr. cbn [heap]. now apply Hkeep, Hstores0.
  - (* leaving db.run *)
    split; [|discriminate].
    intros j t0 Hj.
    destruct (lookup_stepped _ _ _ _ _ _ Hi Hj) as [[-> ->]|[Hne Hj0]].
    + cbn [t_code t_stack]. split; [|split].
      * apply (Hstack store k). rewrite Hst. now left.
      * intros store0 k0 Hin0. apply (Hstack store0 k0). rewrite Hst. now right.
      * intros r Hr. apply Hstores. unfold stores_of. rewrite Hst.
        right. exact Hr.
    + exact (Hws j t0 Hj0).
Qed.

Lemma well_scoped_initial ps w :
  Forall well_called ps -> well_scoped (initial ps) w.
Proof.
  intros Hps i t Hi. unfold initial in Hi.
  rewrite list_lookup_fmap in Hi.
  destruct (ps !! i) as [p|] eqn:Hp; [|discriminate].
  injection Hi as <-. cbn [t_code t_stack]. split; [|split].
  - rewrite Forall_forall in Hps. apply Hps. eapply list_elem_of_lookup_2.
    exact Hp.
  - intros ? ? [].
  - intros r [Hr|[]]. discriminate.
Qed.

Lemma well_scoped_trace sched : forall ts w,
  well_scoped ts w ->
  forall n i store before after resolved res,
    fst (run_schedule sched ts w) !! n =
      Some (i, LQuery store before after resolved res) ->
    res <> Err (CoreError msg_no_client_or_factory).
Proof.
  induction sched as [|i0 sched IH]; intros ts w Hws n i store before after
    resolved res Hn.
  - simpl in Hn. now rewrite lookup_nil in Hn.
  - cbn [run_schedule] in Hn.
    destruct (sys_step i0 ts w) as [[[l ts'] w']|] eqn:Hstep.
    + destruct (well_scoped_step _ _ _ _ _ _ Hws Hstep) as (Hws' & Hl).
      specialize (IH ts' w' Hws').
      destruct (run_schedule sched ts' w') as [tr s]. cbn [fst] in *.
      destruct n as [|n].
      * injection Hn as <- ->. eapply Hl. reflexivity.
      * eapply IH. exact Hn.
    + eapply IH; eassumption.
Qed.

(** ** Every chain holds only records of its own *)

Lemma evolves_refl c0 : evolves c0 c0.
Proof. now split. Qed.

Lemma owned_step i ts w l ts' w' own :
  owned own ts w -> sys_step i ts w = Some (l, ts', w') ->
  owned (record_owner i l own) ts' w' /\ step_sound i own w l.
Proof.
  intros (Hrange & Hheld & Hev) Hstep.
  destruct (sys_step_cases _ _ _ _ _ _ Hstep) as (t & t' & Hi & Ht & ->).
  destruct (step_task_cases _ _ _ _ _ Ht)
    as [(text & values & k & Hc & -> & -> & ->)
       |[(input & body & k & context & w1 & Hc & Hn & -> & -> & ->)
        |(res & store & k & rest & Hc & Hst & -> & -> & ->)]].
  - (* a query *)
    cbn [record_owner]. split.
    + split; [|split].
      * intros r x Hx. rewrite proxy_query_length. eapply Hrange. exact Hx.
      * intros j t0 r Hj Hr.
        destruct (lookup_stepped _ _ _ _ _ _ Hi Hj) as [[-> ->]|[Hne Hj0]].
        -- apply (Hheld i t r Hi). exact Hr.
        -- apply (Hheld j t0 r Hj0). exact Hr.
      * intros r j c0 Hx. apply proxy_query_evolves. eapply Hev. exact Hx.
    + unfold step_sound. destruct (t_store t) as [r|] eqn:Hs.
      * destruct (Hheld i t r Hi) as [c0 Hc0].
        { unfold stores_of. rewrite Hs. now left. }
        exists c0. split; [exact Hc0|]. split; [reflexivity|].
        split; [eapply Hev; exact Hc0|].
        split; [apply (getClient_resolved (Some r) w)|].
        exists (ext w). apply getClient_local.
      * reflexivity.
  - (* entering db.run *)
    assert (Hfresh : own (length (heap w)) = None).
    { destruct (own (length (heap w))) as [x|] eqn:Hx; [|reflexivity].
      apply Hrange in Hx. lia. }
    assert (Hold : forall r x, own r = Some x ->
              record_owner i (LEnter input (length (heap w)) context) own r = Some x
              /\ r <> length (heap w)).
    { intros r x Hx. pose proof (Hrange r x Hx) as Hlt. cbn [record_owner].
      destruct (Nat.eqb_spec r (length (heap w))); [lia|]. now split. }
    split.
    + split; [|split].
      * intros r x. cbn [record_owner heap]. rewrite length_app. cbn [length].
        destruct (Nat.eqb_spec r (length (heap w))) as [->|Hne]; [lia|].
        intros Hx. apply Hrange in Hx. lia.
      * intros j t0 r Hj Hr.
        destruct (lookup_stepped _ _ _ _ _ _ Hi Hj) as [[-> ->]|[Hne Hj0]].
        -- destruct Hr as [[= <-]|Hr].
           ++ exists context. cbn [record_owner]. now rewrite Nat.eqb_refl.
           ++ destruct (Hheld i t r Hi Hr) as [c0 Hc0]. exists c0.
              now apply Hold.
        -- destruct (Hheld j t0 r Hj0 Hr) as [c0 Hc0]. exists c0. now apply Hold.
      * intros r j c0. cbn [record_owner heap].
        destruct (Nat.eqb_spec r (length (heap w))) as [->|Hne].
        -- intros [= <- <-]. rewrite lookup_total_alloc. apply evolves_refl.
        -- intros Hx. rewrite lookup_total_alloc_other by exact Hne.
           eapply Hev. exact Hx.
    + split; [exact Hfresh|].
      pose proof (normalize_enters input w) as He. now rewrite Hn in He.
  - (* leaving db.run *)
    cbn [record_owner]. split; [|exact I].
    split; [exact Hrange|]. split; [|exact Hev].
    intros j t0 r Hj Hr.
    destruct (lookup_stepped _ _ _ _ _ _ Hi Hj) as [[-> ->]|[Hne Hj0]].
    + apply (Hheld i t r Hi). unfold stores_of. rewrite Hst. right. exact Hr.
    + apply (Hheld j t0 r Hj0). exact Hr.
Qed.

Lemma initial_outside ps j t :
  initial ps !! j = Some t -> stores_of t = map Some [] ++ [None].
Proof.
  unfold initial. rewrite list_lookup_fmap.
  destruct (ps !! j) as [p|]; [|discriminate]. now intros [= <-].
Qed.

Lemma owned_initial ps w : owned (fun _ => None) (initial ps) w.
Proof.
  split; [discriminate|]. split; [|discriminate].
  intros i t r Hi Hr. unfold initial in Hi. rewrite list_lookup_fmap in Hi.
  destruct (ps !! i) as [p|]; [|discriminate]. injection Hi as <-.
  destruct Hr as [Hr|[]]. discriminate.
Qed.

Lemma record_owner_extends i own w l r x :
  step_sound i own w l -> own r = Some x -> record_owner i l own r = Some x.
Proof.
  destruct l as [input r0 context| |]; cbn [record_owner]; try (intros _ Hx; exact Hx).
  intros [Hfresh _] Hx. destruct (Nat.eqb_spec r r0) as [->|]; congruence.
Qed.

Lemma record_owner_cases i own l r y :
  record_owner i l own r = Some y ->
  own r = Some y \/ exists input context, l = LEnter input r context /\ y = (i, context).
Proof.
  destruct l as [input r0 context| |]; cbn [record_owner]; try (now left).
  destruct (Nat.eqb_spec r r0) as [->|]; [|now left].
  intros [= <-]. right. now exists input, context.
Qed.

Lemma record_owner_mentioned i own w l r :
  step_sound i own w l -> mentions r l = true ->
  exists c0, record_owner i l own r = Some (i, c0).
Proof.
  destruct l as [input r0 context|[r0|] before after resolved res|];
    cbn [mentions record_owner step_sound]; try discriminate.
  - intros _ Hm. rewrite Hm. now exists context.
  - intros (c0 & Hc0 & _) Hm. apply Nat.eqb_eq in Hm as ->. now exists c0.
Qed.

(** Along any schedule, from a state in which every held store is owned. *)
Lemma owned_trace sched : forall ts w own,
  owned own ts w ->
  exists own',
    (forall r x, own r = Some x -> own' r = Some x)
    /\ (forall k j l r,
          fst (run_schedule sched ts w) !! k = Some (j, l) ->
          mentions r l = true -> exists c0, own' r = Some (j, c0))
    /\ (forall n i r before after resolved res,
          fst (run_schedule sched ts w) !! n =
            Some (i, LQuery (Some r) before after resolved res) ->
          exists c0 c,
            own' r = Some (i, c0)
            /\ (own r = Some (i, c0)
                \/ exists m input,
                     m < n
                     /\ fst (run_schedule sched ts w) !! m =
                        Some (i, LEnter input r c0)
                     /\ enters input c0)
            /\ before = Some c
            /\ evolves c0 c
            /\ resolves_from c resolved)
    /\ (forall n i before after resolved res,
          fst (run_schedule sched ts w) !! n =
            Some (i, LQuery None before after resolved res) ->
          resolved = Err (CoreError msg_no_context)).
Proof.
  induction sched as [|i0 sched IH]; intros ts w own Hown.
  { exists own. cbn. split; [auto|].
    repeat split; intros; rewrite lookup_nil in *; discriminate. }
  cbn [run_schedule].
  destruct (sys_step i0 ts w) as [[[l ts'] w']|] eqn:Hstep; [|now apply IH].
  destruct (owned_step _ _ _ _ _ _ _ Hown Hstep) as (Hown1 & Hsound).
  destruct (IH ts' w' _ Hown1) as (own' & Hext & Hment & Hquery & Hnone).
  destruct (run_schedule sched ts' w') as [tr s]. cbn [fst] in *.
  exists own'. split; [|split; [|split]].
  - intros r x Hx. apply Hext. eapply record_owner_extends; eassumption.
  - intros [|k] j l0 r Hk Hm.
    + injection Hk as <- <-.
      destruct (record_owner_mentioned _ _ _ _ _ Hsound Hm) as [c0 Hc0].
      exists c0. now apply Hext.
    + eapply Hment; eassumption.
  - intros [|n] i r before after resolved res Hn.
    + injection Hn as <- ->. cbn [step_sound] in Hsound.
      destruct Hsound as (c0 & Hc0 & -> & Hev & Hres).
      exists c0, (heap w !!! r). split.
      { apply Hext. cbn [record_owner]. exact Hc0. }
      split; [now left|]. split; [reflexivity|]. split; [exact Hev|exact Hres].
    + destruct (Hquery n i r before after resolved res Hn)
        as (c0 & c & Hc0 & Horigin & Hb & Hev & Hres).
      exists c0, c. split; [exact Hc0|].
      split; [|split; [exact Hb|split; [exact Hev|exact Hres]]].
      destruct Horigin as [Hown0|(m & input & Hm & Hent & Henters)].
      * destruct (record_owner_cases _ _ _ _ _ Hown0)
          as [Hold|(input & context & -> & [= -> ->])].
        -- now left.
        -- right. exists 0, input. split; [lia|]. split; [reflexivity|].
           apply Hsound.
      * right. exists (S m), input. split; [lia|]. now split.
  - intros [|n] i before after resolved res Hn.
    + injection Hn as <- ->. exact Hsound.
    + eapply Hnone. exact Hn.
Qed.

(** ** A record is as the last step that mentions it left it *)

Lemma step_leaves i ts w l ts' w' r :
  sys_step i ts w = Some (l, ts', w') ->
  leaves r (Some (heap w !!! r)) (i, l) = Some (heap w' !!! r).
Proof.
  intros Hstep.
  destruct (sys_step_cases _ _ _ _ _ _ Hstep) as (t & t' & Hi & Ht & ->).
  destruct (step_task_cases _ _ _ _ _ Ht)
    as [(text & values & k & Hc & -> & -> & ->)
       |[(input & body & k & context & w1 & Hc & Hn & -> & -> & ->)
        |(res & store & k & rest & Hc & Hst & -> & -> & ->)]];
    unfold leaves; cbn [snd mentions left_by].
  - destruct (t_store t) as [r'|] eqn:Hs.
    + destruct (Nat.eqb_spec r r') as [->|Hne]; [reflexivity|].
      rewrite proxy_query_frame by congruence. reflexivity.
    + rewrite proxy_query_frame by congruence. reflexivity.
  - cbn [heap]. destruct (Nat.eqb_spec r (length (heap w))) as [->|Hne].
    + now rewrite lookup_total_alloc.
    + now rewrite lookup_total_alloc_other.
  - reflexivity.
Qed.

Lemma frame_trace sched : forall ts w n i r before after resolved res,
  fst (run_schedule sched ts w) !! n =
    Some (i, LQuery (Some r) before after resolved res) ->
  fold_left (leaves r) (take n (fst (run_schedule sched ts w)))
            (Some (heap w !!! r)) = before.
Proof.
  induction sched as [|i0 sched IH]; intros ts w n i r before after resolved res Hn.
  { cbn in Hn. now rewrite lookup_nil in Hn. }
  cbn [run_schedule] in *.
  destruct (sys_step i0 ts w) as [[[l ts'] w']|] eqn:Hstep;
    [|eapply IH; eassumption].
  specialize (IH ts' w').
  destruct (run_schedule sched ts' w') as [tr s]. cbn [fst] in *.
  destruct n as [|n].
  - injection Hn as <- Hl. cbn.
    destruct (sys_step_cases _ _ _ _ _ _ Hstep) as (t & t' & Hi & Ht & ->).
    destruct (step_task_cases _ _ _ _ _ Ht)
      as [(text & values & k & Hc & Hl' & _)
         |[(input & body & k & context & w1 & Hc & Hn' & Hl' & _)
          |(res0 & store & k & rest & Hc & Hst & Hl' & _)]];
      rewrite Hl in Hl'; try discriminate.
    injection Hl' as <- -> _ _ _. reflexivity.
  - cbn [take fold_left]. rewrite (step_leaves _ _ _ _ _ _ r Hstep).
    eapply IH. exact Hn.
Qed.

Lemma fold_leaves_mentioned r (tr : list (nat * label)) : forall acc acc' m j l,
  tr !! m = Some (j, l) -> mentions r l = true ->
  fold_left (leaves r) tr acc = fold_left (leaves r) tr acc'.
Proof.
  induction tr as [|[j0 l0] tr IH]; intros acc acc' m j l Hm Hl.
  { now rewrite lookup_nil in Hm. }
  cbn [fold_left]. destruct m as [|m].
  - injection Hm as -> ->. unfold leaves at 2 4. cbn [snd]. now rewrite Hl.
  - unfold leaves at 2 4. cbn [snd].
    destruct (mentions r l0); [reflexivity|]. eapply IH; eassumption.
Qed.

(** ** The store of a chain is its innermost open scope *)

Lemma store_is_innermost sched : forall ts w (open_of : nat -> list nat),
  (forall j t, ts !! j = Some t -> stores_of t = map Some (open_of j) ++ [None]) ->
  forall n i store before after resolved res,
    fst (run_schedule sched ts w) !! n =
      Some (i, LQuery store before after resolved res) ->
    store = head (fold_left (scopes_step i)
                            (take n (fst (run_schedule sched ts w))) (open_of i)).
Proof.
  induction sched as [|i0 sched IH];
    intros ts w open_of Hinv n i store before after resolved res Hn.
  { cbn in Hn. now rewrite lookup_nil in Hn. }
  cbn [run_schedule] in *.
  destruct (sys_step i0 ts w) as [[[l ts'] w']|] eqn:Hstep;
    [|eapply IH; eassumption].
  destruct (sys_step_cases _ _ _ _ _ _ Hstep) as (t & t' & Hi & Ht & ->).
  pose proof (Hinv i0 t Hi) as Hst.
  assert (Hinv' : forall j t0, <[i0 := t']> ts !! j = Some t0 ->
            stores_of t0 =
            map Some (scopes_step j (open_of j) (i0, l)) ++ [None]).
  { intros j t0 Hj. unfold scopes_step. cbn [fst snd].
    destruct (lookup_stepped _ _ _ _ _ _ Hi Hj) as [[-> ->]|[Hne Hj0]].
    - rewrite Nat.eqb_refl.
      destruct (step_task_cases _ _ _ _ _ Ht)
        as [(text & values & k & Hc & -> & -> & ->)
           |[(input & body & k & context & w1 & Hc & Hnorm & -> & -> & ->)
            |(res0 & store0 & k & rest & Hc & Hstk & -> & -> & ->)]].
      + exact Hst.
      + unfold stores_of in *. cbn [t_store t_stack map fst]. now rewrite Hst.
      + unfold stores_of in *. rewrite Hstk in Hst. cbn [t_store t_stack map fst] in *.
        destruct (open_of i0) as [|r0 rest0]; [discriminate|].
        cbn [map app tail] in *. now injection Hst.
    - destruct (Nat.eqb_spec i0 j); [congruence|]. now apply Hinv. }
  specialize (IH (<[i0 := t']> ts) w' _ Hinv').
  destruct (run_schedule sched (<[i0 := t']> ts) w') as [tr s]. cbn [fst] in *.
  destruct n as [|n].
  - injection Hn as <- Hl. cbn [take fold_left].
    destruct (step_task_cases _ _ _ _ _ Ht)
      as [(text & values & k & Hc & Hl' & _)
         |[(input & body & k & context & w1 & Hc & Hnorm & Hl' & _)
          |(res0 & store0 & k & rest & Hc & Hstk & Hl' & _)]];
      rewrite Hl in Hl'; try discriminate.
    injection Hl' as -> _ _ _ _.
    unfold stores_of in Hst. destruct (open_of i0); now injection Hst.
  - cbn [take fold_left]. eapply IH. exact Hn.
Qed.

(** ** The error of line 45 *)

(** C7, as the code has it.  A query under a record that has neither a
    truthy client nor a truthy factory fails with the error of driver.ts
    line 45 and does nothing else, and that error is not the one for a
    missing scope: the two differ by their message.  The record [db.run]
    builds from a string or from a truthy value has a truthy client or a
    truthy factory.  A factory is called as a method of its record; here,
    as the [Runtime] interface has it, the call acts on the outside world
    and leaves every record as it is.  Under these two conditions, every
    [db.run] given a string or a truthy value and no factory writing to
    the record it is called on, no query of any chain, however the chains
    are interleaved, ends in the error of line 45. *)
Theorem invariant_error_needs_unusable_record :
  (forall r w text values,
     truthy (get (client (heap w !!! r))) = false ->
     truthy (get (factory (heap w !!! r))) = false ->
     proxy_query text values (Some r) w =
       (Err (CoreError msg_no_client_or_factory), w))
  /\ msg_no_client_or_factory <> msg_no_context
  /\ (forall ps w sched n i store before after resolved res,
        Forall well_called ps ->
        fst (run_schedule sched (initial ps) w) !! n =
          Some (i, LQuery store before after resolved res) ->
        res <> Err (CoreError msg_no_client_or_factory))
  /\ (forall input w,
        usable_input input = true -> usable (fst (normalize input w)))
  /\ (forall v w, heap (snd (call v w)) = heap w).
Proof.
  split; [|split; [|split; [|split]]].
  - intros r w text values Hc Hf. unfold proxy_query.
    now rewrite (getClient_neither r w Hc Hf).
  - exact msg_distinct.
  - intros ps w sched n i store before after resolved res Hps Hn.
    eapply well_scoped_trace; [|exact Hn]. now apply well_scoped_initial.
  - exact normalize_usable.
  - intros v w. unfold call. destruct v; try reflexivity.
    now destruct (call_function f (ext w)).
Qed.

(** ** Isolation *)

(** The step behind an entry of the trace: the turns before it, the state
    they lead to, and the step taken there. *)
Lemma trace_step_at sched : forall ts w n i l,
  fst (run_schedule sched ts w) !! n = Some (i, l) ->
  exists pre post ts1 w1 ts2 w2,
    sched = pre ++ i :: post
    /\ run_schedule pre ts w = (take n (fst (run_schedule sched ts w)), (ts1, w1))
    /\ sys_step i ts1 w1 = Some (l, ts2, w2).
Proof.
  induction sched as [|i0 sched IH]; intros ts w n i l Hn.
  { cbn in Hn. now rewrite lookup_nil in Hn. }
  cbn [run_schedule] in *.
  destruct (sys_step i0 ts w) as [[[l0 ts'] w']|] eqn:Hstep.
  - specialize (IH ts' w').
    destruct (run_schedule sched ts' w') as [tr s] eqn:Hrest. cbn [fst] in *.
    destruct n as [|n].
    + injection Hn as <- <-.
      exists [], sched, ts, w, ts', w'. now repeat split.
    + destruct (IH n i l Hn)
        as (pre & post & ts1 & w1 & ts2 & w2 & -> & Hpre & Hs).
      exists (i0 :: pre), post, ts1, w1, ts2, w2.
      split; [reflexivity|]. split; [|exact Hs].
      cbn [run_schedule take]. now rewrite Hstep, Hpre.
  - destruct (IH ts w n i l Hn)
      as (pre & post & ts1 & w1 & ts2 & w2 & -> & Hpre & Hs).
    exists (i0 :: pre), post, ts1, w1, ts2, w2.
    split; [reflexivity|]. split; [|exact Hs].
    cbn [run_schedule]. now rewrite Hstep.
Qed.

(** A query under a record is made with that record: on its client when it
    is an object, and otherwise, when there is no truthy client, through its
    factory. *)
Lemma proxy_query_on_record text values r w :
  (forall o, client (heap w !!! r) = Some (VObj o) ->
     proxy_query text values (Some r) w =
     (lift (fst (client_query o text values (ext w))),
      mkWorld (heap w) (snd (client_query o text values (ext w)))
              (log w ++ [EvClientQuery o text values
                           (fst (client_query o text values (ext w)))])))
  /\ (forall f, truthy (get (client (heap w !!! r))) = false ->
        factory (heap w !!! r) = Some (VFun f) ->
        proxy_query text values (Some r) w =
        (let '(made, e) := call_function f (ext w) in
         match made with
         | Normal v =>
             invoke_query v text values
               (assign_client r v (with_ext e (EvFactoryCall f made) w))
         | Abrupt x => (Err (Foreign x), with_ext e (EvFactoryCall f made) w)
         end)).
Proof.
  split.
  - intros o Hc. unfold proxy_query.
    rewrite getClient_cached by now rewrite Hc.
    rewrite Hc. cbn [get invoke_query]. unfold with_ext.
    now destruct (client_query o text values (ext w)).
  - intros f Hc Hf. unfold proxy_query.
    rewrite (getClient_factory r w f Hc Hf).
    now destruct (call_function f (ext w)) as [[v|x] e].
Qed.

(** C9.  Chains start outside every scope and are interleaved in any order,
    each step running one chain up to its next suspension point.  Take any
    query made by chain [i].  Its store is the record of the innermost
    [db.run] chain [i] has entered and not left, whatever the other chains
    did in between.  Made outside every [db.run], it finds no scope.
    Otherwise the record [r] it reads was established by a [db.run] that
    chain [i] itself entered earlier, from that call's input; no step
    of any other chain ever established or read [r]; the record is found
    exactly as the last step that mentions [r], a step of chain [i], left
    it; its factory is the one of that input; when the input gave a client,
    the record is still the one built and the query resolves that client;
    and in every case what the query resolves is what the record alone
    gives, with the outside world as it then is.

    And the query is made with that record and nothing else.  In the state
    the turns before it lead to, chain [i] is at a query with some text and
    values; the outcome the chain goes on with, and what the step does to
    the world, are those of [proxy_query] for that text and those values
    under the store of chain [i].  When the client of the record is an
    object, the query is one call of that object with that text and those
    values: its answer or what it threw is the outcome, the call is what
    the log grows by, and no record changes.  When the record has no truthy
    client, the factory of the record is called, and the query is the
    member call on what it returned, after the assignment to this record,
    or fails with what it threw.

    The queries of a callback are those its own code makes before it
    settles.  A query that a value handed back by the callback makes
    later, when the caller takes that value over, is a query of the
    caller: it comes after the step that leaves the [db.run], and its
    store is, as for every query, the innermost [db.run] its chain is
    still inside of. *)
Theorem scopes_are_isolated ps w sched n i store before after resolved res :
  fst (run_schedule sched (initial ps) w) !! n =
    Some (i, LQuery store before after resolved res) ->
  store = head (open_scopes i (take n (fst (run_schedule sched (initial ps) w))))
  /\
  match store with
  | None => resolved = Err (CoreError msg_no_context)
  | Some r =>
      exists m input context c,
        m < n
        /\ fst (run_schedule sched (initial ps) w) !! m =
           Some (i, LEnter input r context)
        /\ enters input context
        /\ (forall k j l,
              fst (run_schedule sched (initial ps) w) !! k = Some (j, l) ->
              mentions r l = true -> j = i)
        /\ before = Some c
        /\ last_left r (take n (fst (run_schedule sched (initial ps) w))) = Some c
        /\ factory c = factory context
        /\ (truthy (get (client context)) = true ->
            c = context /\ resolved = Ok (get (client context)))
        /\ (exists e : Ext,
              resolved = fst (getClientFromContext (Some 0) (mkWorld [c] e [])))
  end
  /\
  exists pre post text values k t ts1 w1,
    sched = pre ++ i :: post
    /\ run_schedule pre (initial ps) w =
       (take n (fst (run_schedule sched (initial ps) w)), (ts1, w1))
    /\ ts1 !! i = Some t
    /\ t_code t = Query text values k
    /\ t_store t = store
    /\ before = record_at store w1
    /\ resolved = fst (getClientFromContext store w1)
    /\ res = fst (proxy_query text values store w1)
    /\ after = record_at store (snd (proxy_query text values store w1))
    /\ sys_step i ts1 w1 =
       Some (LQuery store before after resolved res,
             <[i := mkTask store (k res) (t_stack t)]> ts1,
             snd (proxy_query text values store w1))
    /\ match store with
       | None =>
           proxy_query text values store w1 = (Err (CoreError msg_no_context), w1)
       | Some r =>
           (forall o, client (heap w1 !!! r) = Some (VObj o) ->
              proxy_query text values store w1 =
              (lift (fst (client_query o text values (ext w1))),
               mkWorld (heap w1) (snd (client_query o text values (ext w1)))
                       (log w1 ++ [EvClientQuery o text values
                                     (fst (client_query o text values (ext w1)))])))
           /\ (forall f, truthy (get (client (heap w1 !!! r))) = false ->
                 factory (heap w1 !!! r) = Some (VFun f) ->
                 proxy_query text values store w1 =
                 (let '(made, e) := call_function f (ext w1) in
                  match made with
                  | Normal v =>
                      invoke_query v text values
                        (assign_client r v (with_ext e (EvFactoryCall f made) w1))
                  | Abrupt x =>
                      (Err (Foreign x), with_ext e (EvFactoryCall f made) w1)
                  end))
       end.
Proof.
  intros Hn. split.
  { apply (store_is_innermost sched (initial ps) w (fun _ => [])
             (initial_outside ps) n i store before after resolved res Hn). }
  split.
  { destruct (owned_trace sched (initial ps) w (fun _ => None) (owned_initial ps w))
      as (own' & _ & Hment & Hquery & Hnone).
    destruct store as [r|]; [|eapply Hnone; exact Hn].
    destruct (Hquery n i r before after resolved res Hn)
      as (c0 & c & Hc0 & [Habs|(m & input & Hm & Hent & Henters)] & Hb
          & [Hfac Hsame] & [Hres Hlocal]);
      [discriminate|].
    exists m, input, c0, c.
    split; [exact Hm|]. split; [exact Hent|]. split; [exact Henters|]. split.
    { intros k j l Hk Hl. destruct (Hment k j l r Hk Hl) as [c1 Hc1]. congruence. }
    split; [exact Hb|]. split.
    { pose proof (frame_trace sched (initial ps) w n i r before after resolved res Hn)
        as Hframe.
      unfold last_left. rewrite <- Hb, <- Hframe.
      eapply (fold_leaves_mentioned r _ _ _ m i (LEnter input r c0)).
      - rewrite lookup_take_lt by exact Hm. exact Hent.
      - cbn. apply Nat.eqb_refl. }
    split; [exact Hfac|]. split; [|exact Hlocal].
    intros Ht. pose proof (Hsame Ht) as ->. split; [reflexivity|]. now apply Hres. }
  destruct (trace_step_at sched (initial ps) w n i _ Hn)
    as (pre & post & ts1 & w1 & ts2 & w2 & Hsched & Hpre & Hstep).
  destruct (sys_step_cases _ _ _ _ _ _ Hstep) as (t & t' & Hi & Ht & Hts2).
  destruct (step_task_cases _ _ _ _ _ Ht)
    as [(text & values & k & Hc & Hl & Hw2 & Ht')
       |[(input & body & k & context & w1' & _ & _ & Hl & _)
        |(res0 & store0 & k & rest & _ & _ & Hl & _)]];
    try discriminate.
  injection Hl as Hstore Hbefore Hafter Hresolved Hres.
  exists pre, post, text, values, k, t, ts1, w1.
  split; [exact Hsched|]. split; [exact Hpre|]. split; [exact Hi|].
  split; [exact Hc|]. split; [now symmetry|].
  rewrite Hstore, <- Hw2.
  split; [exact Hbefore|]. split; [exact Hresolved|]. split; [exact Hres|].
  split; [exact Hafter|]. split.
  { rewrite Hstep, Hts2, Ht', Hw2, Hbefore, Hafter, Hresolved, Hres, Hstore.
    reflexivity. }
  destruct (t_store t) as [r|]; [|reflexivity].
  apply proxy_query_on_record.
Qed.

(** ** A chain run alone *)

Lemma run_schedule_step i rest ts w l ts' w' :
  sys_step i ts w = Some (l, ts', w') ->
  snd (run_schedule (i :: rest) ts w) = snd (run_schedule rest ts' w').
Proof.
  intros Hstep. cbn [run_schedule]. rewrite Hstep.
  now destruct (run_schedule rest ts' w').
Qed.

Lemma run_schedule_app s1 s2 ts w :
  snd (run_schedule (s1 ++ s2) ts w) =
  snd (run_schedule s2 (fst (snd (run_schedule s1 ts w)))
                       (snd (snd (run_schedule s1 ts w)))).
Proof.
  revert ts w. induction s1 as [|i s1 IH]; intros ts w; [reflexivity|].
  cbn [app run_schedule].
  destruct (sys_step i ts w) as [[[l ts'] w']|]; [|apply IH].
  specialize (IH ts' w').
  destruct (run_schedule (s1 ++ s2) ts' w') as [tr s].
  destruct (run_schedule s1 ts' w') as [tr1 [ts1 w1]].
  exact IH.
Qed.

(** The steps of the event loop, given to one chain until it settles, do
    what [exec] does in one go: the chain ends where it started, with the
    outcome and the world of [exec].  In particular entering and leaving a
    [db.run] step by step is [db_run]. *)
Lemma exec_adequate p : forall store stack w,
  exists n,
    snd (run_schedule (replicate n 0) [mkTask store p stack] w) =
    ([mkTask store (Settle (fst (exec p store w))) stack], snd (exec p store w)).
Proof.
  induction p as [res|text values k IHk|input body IHbody k IHk];
    intros store stack w.
  - now exists 0.
  - cbn [exec]. destruct (proxy_query text values store w) as [res w1] eqn:Hq.
    destruct (IHk res store stack w1) as [n Hn]. exists (S n).
    cbn [replicate].
    erewrite run_schedule_step; [exact Hn|].
    unfold sys_step, step_task. cbn. now rewrite Hq.
  - cbn [exec]. unfold db_run, asyncLocalStorage_run.
    destruct (normalize input w) as [context w1] eqn:Hnorm.
    destruct (alloc context w1) as [r w2] eqn:Hal.
    destruct (IHbody (Some r) ((store, k) :: stack) w2) as [n1 Hn1].
    destruct (exec body (Some r) w2) as [res w3]. cbn [fst snd] in Hn1.
    destruct (IHk res store stack w3) as [n2 Hn2].
    exists (S (n1 + S n2)). cbn [replicate].
    erewrite run_schedule_step;
      [|unfold sys_step, step_task; cbn -[alloc normalize];
        rewrite Hnorm, Hal; reflexivity].
    rewrite replicate_add, run_schedule_app, Hn1. cbn [fst snd replicate].
    erewrite run_schedule_step; [exact Hn2|]. reflexivity.
Qed.

End Chains.

(** * Further properties of the driver *)

Section Scopes.

Context {Ext : Type} `{RT : Runtime Ext}.

Implicit Types (w : @world Ext) (r : nat) (t : task) (ts : list task)
  (l : label).

(** ** A cached client stays *)

Lemma sys_step_keeps_cached i ts w l ts' w' r :
  truthy (get (client (heap w !!! r))) = true ->
  sys_step i ts w = Some (l, ts', w') ->
  heap w' !!! r = heap w !!! r.
Proof.
  intros Hc Hstep.
  destruct (sys_step_cases _ _ _ _ _ _ Hstep) as (t & t' & Hi & Ht & ->).
  destruct (step_task_cases _ _ _ _ _ Ht)
    as [(text & values & k & _ & _ & -> & _)
       |[(input & body & k & context & w1 & _ & _ & _ & -> & _)
        |(res & store & k & rest & _ & _ & _ & -> & _)]].
  - destruct (proxy_query_heap text values (t_store t) w)
      as [->|(r' & c & _ & Hc' & _ & ->)]; [reflexivity|].
    apply lookup_total_insert_other. intros ->. congruence.
  - cbn [heap]. apply lookup_total_alloc_other.
    assert (r < length (heap w)); [|lia].
    apply usable_in_range. now left.
  - reflexivity.
Qed.

(** X1.  Once the record at [r] has a truthy client, no step of any chain,
    in any order, changes that record; and every query made under [r]
    from then on, by whichever chain holds it, finds the record so, leaves
    it so and resolves that client. *)
Theorem cached_client_is_stable sched : forall ts w r,
  truthy (get (client (heap w !!! r))) = true ->
  heap (snd (snd (run_schedule sched ts w))) !!! r = heap w !!! r
  /\ forall n i before after resolved res,
       fst (run_schedule sched ts w) !! n =
         Some (i, LQuery (Some r) before after resolved res) ->
       before = Some (heap w !!! r)
       /\ after = Some (heap w !!! r)
       /\ resolved = Ok (get (client (heap w !!! r))).
Proof.
  induction sched as [|i0 sched IH]; intros ts w r Hc.
  { split; [reflexivity|]. intros n i before after resolved res Hn.
    cbn in Hn. now rewrite lookup_nil in Hn. }
  cbn [run_schedule].
  destruct (sys_step i0 ts w) as [[[l ts'] w']|] eqn:Hstep; [|now apply IH].
  pose proof (sys_step_keeps_cached _ _ _ _ _ _ r Hc Hstep) as Hkeep.
  assert (Hc' : truthy (get (client (heap w' !!! r))) = true) by now rewrite Hkeep.
  destruct (IH ts' w' r Hc') as (Hend & Hqueries).
  destruct (run_schedule sched ts' w') as [tr [ts'' w'']]. cbn [fst snd] in *.
  split; [congruence|].
  intros [|n] i before after resolved res Hn.
  - injection Hn as <- Hl.
    destruct (sys_step_cases _ _ _ _ _ _ Hstep) as (t & t' & Hi & Ht & _).
    destruct (step_task_cases _ _ _ _ _ Ht)
      as [(text & values & k & _ & Hl' & Hw & _)
         |[(input & body & k & context & w1 & _ & _ & Hl' & _)
          |(res0 & store & k & rest & _ & _ & Hl' & _)]];
      rewrite Hl in Hl'; try discriminate.
    injection Hl' as Hs -> -> -> _. rewrite <- Hs.
    cbn [record_at]. split; [reflexivity|]. split; [now rewrite Hkeep|].
    now rewrite getClient_cached.
  - rewrite <- Hkeep. eapply Hqueries. exact Hn.
Qed.

(** ** Callbacks leave the records of other scopes alone *)

Lemma exec_length p : forall store w,
  length (heap w) <= length (heap (snd (exec p store w))).
Proof.
  induction p as [res|text values k IHk|input body IHbody k IHk]; intros store w.
  - cbn. lia.
  - cbn [exec]. pose proof (proxy_query_length text values store w) as Hlen.
    destruct (proxy_query text values store w) as [res w1]. cbn [snd] in *.
    specialize (IHk res store w1). lia.
  - cbn [exec]. unfold db_run, asyncLocalStorage_run, alloc.
    pose proof (normalize_heap input w) as Hh.
    destruct (normalize input w) as [context w1]. cbn [snd] in Hh.
    set (w2 := mkWorld (heap w1 ++ [context]) (ext w1) (log w1)).
    assert (Hlen2 : length (heap w2) = S (length (heap w))).
    { subst w2. cbn [heap]. rewrite length_app, Hh. cbn. lia. }
    specialize (IHbody (Some (length (heap w1))) w2).
    destruct (exec body (Some (length (heap w1))) w2) as [res w3]. cbn [snd] in *.
    specialize (IHk res store w3). lia.
Qed.

Lemma exec_frame p : forall store w r,
  r < length (heap w) -> store <> Some r ->
  heap (snd (exec p store w)) !!! r = heap w !!! r
  /\ length (heap w) <= length (heap (snd (exec p store w))).
Proof.
  induction p as [res|text values k IHk|input body IHbody k IHk];
    intros store w r Hr Hne.
  - split; [reflexivity|]. cbn. lia.
  - cbn [exec].
    pose proof (proxy_query_frame text values store w r Hne) as Hf.
    pose proof (proxy_query_length text values store w) as Hlen.
    destruct (proxy_query text values store w) as [res w1]. cbn [snd] in *.
    destruct (IHk res store w1 r) as (Hk1 & Hk2); [lia|exact Hne|].
    split; [congruence|lia].
  - cbn [exec]. unfold db_run, asyncLocalStorage_run, alloc.
    pose proof (normalize_heap input w) as Hh.
    destruct (normalize input w) as [context w1]. cbn [snd] in Hh.
    set (w2 := mkWorld (heap w1 ++ [context]) (ext w1) (log w1)).
    assert (Hlen2 : length (heap w2) = S (length (heap w))).
    { subst w2. cbn [heap]. rewrite length_app, Hh. cbn. lia. }
    assert (Hrec2 : heap w2 !!! r = heap w !!! r).
    { subst w2. cbn [heap]. rewrite Hh. apply lookup_total_alloc_other. lia. }
    destruct (IHbody (Some (length (heap w1))) w2 r) as (Hb1 & Hb2);
      [lia|rewrite Hh; intros [= Heq]; lia|].
    destruct (exec body (Some (length (heap w1))) w2) as [res w3]. cbn [snd] in *.
    destruct (IHk res store w3 r) as (Hk1 & Hk2); [lia|exact Hne|].
    split; [congruence|lia].
Qed.

Lemma nested_frame input body store w r :
  r < length (heap w) ->
  heap (snd (db_run input (exec body) store w)) !!! r = heap w !!! r
  /\ length (heap w) < length (heap (snd (db_run input (exec body) store w))).
Proof.
  intros Hr. unfold db_run, asyncLocalStorage_run, alloc.
  pose proof (normalize_heap input w) as Hh.
  destruct (normalize input w) as [context w1]. cbn [snd] in Hh.
  set (w2 := mkWorld (heap w1 ++ [context]) (ext w1) (log w1)).
  assert (Hlen2 : length (heap w2) = S (length (heap w))).
  { subst w2. cbn [heap]. rewrite length_app, Hh. cbn. lia. }
  assert (Hrec2 : heap w2 !!! r = heap w !!! r).
  { subst w2. cbn [heap]. rewrite Hh. apply lookup_total_alloc_other. lia. }
  destruct (exec_frame body (Some (length (heap w1))) w2 r) as (Hb1 & Hb2);
    [lia|rewrite Hh; intros [= Heq]; lia|].
  split; [congruence|lia].
Qed.

(** X2.  A [db.run], whatever its input, whatever its callback does
    (queries that succeed or fail, further [db.run] calls inside it) and
    whichever scope it is called in, leaves every record that existed
    before it exactly as it was; the record it works on is a new one. *)
Theorem nested_run_leaves_outer_records input body store w :
  (forall r, r < length (heap w) ->
     heap (snd (db_run input (exec body) store w)) !!! r = heap w !!! r)
  /\ length (heap w) < length (heap (snd (db_run input (exec body) store w))).
Proof.
  split.
  - intros r Hr. now apply nested_frame.
  - unfold db_run, asyncLocalStorage_run, alloc.
    pose proof (normalize_heap input w) as Hh.
    destruct (normalize input w) as [context w1]. cbn [snd] in Hh.
    set (w2 := mkWorld (heap w1 ++ [context]) (ext w1) (log w1)).
    assert (Hlen2 : length (heap w2) = S (length (heap w))).
    { subst w2. cbn [heap]. rewrite length_app, Hh. cbn. lia. }
    pose proof (exec_length body (Some (length (heap w1))) w2). lia.
Qed.

Lemma client_in_range r w c :
  client (heap w !!! r) = Some c -> r < length (heap w).
Proof.
  intros Hc. destruct (decide (r < length (heap w))) as [|Hge]; [assumption|].
  rewrite list_lookup_total_alt, lookup_ge_None_2 in Hc by lia.
  discriminate.
Qed.

(** X3.  Nested scopes.  A query made inside a [db.run] given the client
    [b] goes to [b], whatever scope the call is made in; and a query made
    in a scope with the truthy client [c], after a [db.run] called in that
    scope has settled, goes to [c], whatever that [db.run] was given and
    whatever its callback did. *)
Theorem nested_scopes_shadow_and_restore text values (k : outcome value -> prog) :
  (forall b k' store w,
     exec (Run (VObj b) (Query text values k) k') store w =
     (let '(res, w1) :=
        invoke_query (VObj b) text values
          (mkWorld (heap w ++ [mkContext (Some (VObj b)) None]) (ext w) (log w)) in
      let '(res', w2) := exec (k res) (Some (length (heap w))) w1 in
      exec (k' res') store w2))
  /\ (forall input body r w c,
        client (heap w !!! r) = Some c -> truthy c = true ->
        exec (Run input body (fun _ => Query text values k)) (Some r) w =
        (let '(_, w1) := db_run input (exec body) (Some r) w in
         let '(res, w2) := invoke_query c text values w1 in
         exec (k res) (Some r) w2)).
Proof.
  split.
  - intros b k' store w. cbn [exec]. unfold db_run, asyncLocalStorage_run.
    cbn [normalize typeof String.eqb Ascii.eqb Bool.eqb alloc exec].
    unfold proxy_query at 1.
    rewrite getClient_cached
      by (cbn [heap]; now rewrite lookup_total_alloc).
    cbn [heap]. rewrite lookup_total_alloc. cbn [client get].
    destruct (invoke_query (VObj b) text values _) as [res w1].
    destruct (exec (k res) (Some (length (heap w))) w1) as [res' w2].
    reflexivity.
  - intros input body r w c Hc Ht. cbn [exec].
    pose proof (client_in_range r w c Hc) as Hr.
    destruct (nested_frame input body (Some r) w r Hr) as (Hrec & _).
    destruct (db_run input (exec body) (Some r) w) as [res0 w1]. cbn [snd] in Hrec.
    unfold proxy_query.
    rewrite getClient_cached by (now rewrite Hrec, Hc).
    now rewrite Hrec, Hc.
Qed.

(** ** The proxy adds nothing to the client's answers *)

Lemma query_all_direct qs : forall r w o,
  client (heap w !!! r) = Some (VObj o) ->
  fst (query_all qs (Some r) w) = fst (direct_queries o qs (ext w))
  /\ ext (snd (query_all qs (Some r) w)) = snd (direct_queries o qs (ext w))
  /\ heap (snd (query_all qs (Some r) w)) = heap w.
Proof.
  induction qs as [|[text values] qs IH]; intros r w o Hc; [now repeat split|].
  cbn [query_all direct_queries]. unfold proxy_query.
  rewrite getClient_cached by now rewrite Hc.
  rewrite Hc. cbn [get invoke_query].
  destruct (client_query o text values (ext w)) as [res e1].
  set (w1 := with_ext e1 (EvClientQuery o text values res) w).
  destruct (IH r w1 o Hc) as (Hout & Hext & Hheap).
  change (ext w1) with e1 in *.
  destruct (query_all qs (Some r) w1) as [out w2].
  destruct (direct_queries o qs e1) as [out' e2]. cbn [fst snd] in *.
  subst. now repeat split.
Qed.

(** X4.  Given a client object, [db.run] with a callback that makes the
    queries [qs] hands back exactly what the client answers when the same
    queries are made on it directly, in the same order, failures included,
    and leaves the outside world as those direct calls leave it. *)
Theorem proxy_is_transparent o qs store w :
  fst (db_run (VObj o) (queries qs) store w) =
    Ok (fst (direct_queries o qs (ext w)))
  /\ ext (snd (db_run (VObj o) (queries qs) store w)) =
     snd (direct_queries o qs (ext w)).
Proof.
  unfold db_run, asyncLocalStorage_run, queries.
  cbn [normalize typeof String.eqb Ascii.eqb Bool.eqb alloc].
  set (w0 := mkWorld (heap w ++ [mkContext (Some (VObj o)) None]) (ext w) (log w)).
  destruct (query_all_direct qs (length (heap w)) w0 o) as (Hout & Hext & _).
  { subst w0. cbn [heap]. now rewrite lookup_total_alloc. }
  change (ext w0) with (ext w) in *.
  destruct (query_all qs (Some (length (heap w))) w0) as [out w1].
  cbn [fst snd] in *. now subst.
Qed.

(** ** Counting along the log *)

Lemma count_where_app {A : Type} (p : A -> bool) (l1 l2 : list A) :
  count_where p (l1 ++ l2) = count_where p l1 + count_where p l2.
Proof.
  induction l1 as [|x l1 IH]; [reflexivity|].
  cbn [app count_where]. rewrite IH. lia.
Qed.

Lemma delegations_counted c (evs : list event) :
  Forall (delegated_to c) evs ->
  pools_built evs = 0 /\ factories_called evs = 0.
Proof.
  induction 1 as [|ev evs Hev _ [IH1 IH2]]; [now split|].
  destruct ev; try contradiction.
  unfold pools_built, factories_called in *. cbn [count_where is_pool_event
    is_any_factory_call]. now rewrite IH1, IH2.
Qed.

(** What one query adds to the log: no pool, at most one call of a factory
    and at most one call of a client. *)
Lemma proxy_query_log text values store w :
  exists evs,
    log (snd (proxy_query text values store w)) = log w ++ evs
    /\ pools_built evs = 0
    /\ factories_called evs <= 1
    /\ clients_called evs <= 1.
Proof.
  assert (Hinv : forall c w', exists evs,
            log (snd (invoke_query c text values w')) = log w' ++ evs
            /\ pools_built evs = 0 /\ factories_called evs = 0
            /\ clients_called evs <= 1).
  { intros c w'. unfold invoke_query.
    destruct c; try (exists []; cbn; rewrite app_nil_r; repeat split; lia).
    destruct (client_query o text values (ext w')) as [res e].
    eexists. split; [reflexivity|]. cbn. repeat split; lia. }
  destruct store as [r|].
  2:{ exists []. cbn. rewrite app_nil_r. repeat split; lia. }
  destruct (truthy (get (client (heap w !!! r)))) eqn:Hc.
  { unfold proxy_query. rewrite (getClient_cached r w Hc).
    destruct (Hinv (get (client (heap w !!! r))) w) as (evs & Hl & Hp & Hf & Hcl).
    exists evs. repeat split; try assumption. lia. }
  destruct (truthy (get (factory (heap w !!! r)))) eqn:Hf.
  2:{ unfold proxy_query. rewrite (getClient_neither r w Hc Hf).
      exists []. cbn. rewrite app_nil_r. repeat split; lia. }
  destruct (factory (heap w !!! r)) as [[| | | | | |f|]|] eqn:Hfac;
    try (exists []; unfold proxy_query, getClientFromContext;
         cbn [getStore fst]; rewrite Hc, Hfac; cbn [get]; cbn [get] in Hf;
         rewrite ?Hf; cbn; rewrite app_nil_r; repeat split; lia).
  unfold proxy_query. rewrite (getClient_factory r w f Hc Hfac).
  destruct (call_function f (ext w)) as [[c|x] e].
  - destruct (Hinv c (assign_client r c (with_ext e (EvFactoryCall f (Normal c)) w)))
      as (evs & Hl & Hp & Hfc & Hcl).
    exists (EvFactoryCall f (Normal c) :: EvAssignClient r c :: evs).
    split.
    + rewrite Hl. unfold assign_client, with_ext. cbn [log].
      now rewrite <- !app_assoc.
    + unfold pools_built, factories_called, clients_called in *.
      cbn [count_where is_pool_event is_any_factory_call is_client_call].
      repeat split; lia.
  - exists [EvFactoryCall f (Abrupt x)]. cbn. repeat split; lia.
Qed.

(** What building the record of a [db.run] adds to the log: the pool, for
    a string, and nothing otherwise. *)
Lemma normalize_log input w :
  exists evs,
    log (snd (normalize input w)) = log w ++ evs
    /\ pools_built evs = (if String.eqb (typeof input) "string" then 1 else 0)
    /\ factories_called evs = 0
    /\ clients_called evs = 0.
Proof.
  unfold normalize, new_Pool.
  destruct input; cbn;
    try (exists []; cbn; rewrite app_nil_r; now repeat split).
  destruct (pg_Pool_new s (ext w)) as [o e].
  exists [EvPoolNew s o]. cbn. now repeat split.
Qed.

(** X5.  Along any interleaving of any chains, the pools built are exactly
    the [db.run] calls entered with a string, and neither the factories
    nor the clients are called more often than queries are made through
    the proxy: a query is never retried and never handed on twice. *)
Theorem calls_are_counted_by_steps sched : forall ts w,
  pools_built (log (snd (snd (run_schedule sched ts w)))) =
    pools_built (log w)
    + count_where is_string_enter (fst (run_schedule sched ts w))
  /\ factories_called (log (snd (snd (run_schedule sched ts w)))) <=
     factories_called (log w)
     + count_where is_query_step (fst (run_schedule sched ts w))
  /\ clients_called (log (snd (snd (run_schedule sched ts w)))) <=
     clients_called (log w)
     + count_where is_query_step (fst (run_schedule sched ts w)).
Proof.
  induction sched as [|i0 sched IH]; intros ts w.
  { cbn. repeat split; lia. }
  cbn [run_schedule].
  destruct (sys_step i0 ts w) as [[[l ts'] w']|] eqn:Hstep; [|apply IH].
  destruct (IH ts' w') as (IHp & IHf & IHc).
  destruct (run_schedule sched ts' w') as [tr [ts'' w'']]. cbn [fst snd] in *.
  cbn [count_where].
  destruct (sys_step_cases _ _ _ _ _ _ Hstep) as (t & t' & Hi & Ht & _).
  destruct (step_task_cases _ _ _ _ _ Ht)
    as [(text & values & k & _ & -> & -> & _)
       |[(input & body & k & context & w1 & _ & Hn & -> & -> & _)
        |(res & store & k & rest & _ & _ & -> & -> & _)]].
  - destruct (proxy_query_log text values (t_store t) w)
      as (evs & Hl & Hp & Hf & Hc).
    unfold pools_built, factories_called, clients_called in *.
    rewrite Hl, !count_where_app in *.
    cbn [is_string_enter is_query_step snd]. repeat split; lia.
  - destruct (normalize_log input w) as (evs & Hl & Hp & Hf & Hc).
    rewrite Hn in Hl. cbn [snd] in Hl.
    unfold pools_built, factories_called, clients_called in *.
    cbn [log] in *. rewrite Hl, !count_where_app in *.
    cbn [is_string_enter is_query_step snd].
    destruct (String.eqb (typeof input) "string"); repeat split; lia.
  - cbn [is_string_enter is_query_step snd]. repeat split; lia.
Qed.

(** ** A run given a connection string *)

Lemma string_run_effect s qs store w :
  fst (db_run (VStr s) (queries qs) store w) =
    Ok (fst (direct_queries (fst (pg_Pool_new s (ext w))) qs
                            (snd (pg_Pool_new s (ext w)))))
  /\ ext (snd (db_run (VStr s) (queries qs) store w)) =
     snd (direct_queries (fst (pg_Pool_new s (ext w))) qs
                         (snd (pg_Pool_new s (ext w))))
  /\ exists evs,
       log (snd (db_run (VStr s) (queries qs) store w)) =
         log w ++ EvPoolNew s (fst (pg_Pool_new s (ext w))) :: evs
       /\ Forall (delegated_to (VObj (fst (pg_Pool_new s (ext w))))) evs.
Proof.
  unfold db_run, asyncLocalStorage_run, queries, normalize, new_Pool, alloc.
  cbn [typeof String.eqb Ascii.eqb Bool.eqb string_of].
  destruct (pg_Pool_new s (ext w)) as [o e1]. cbn [fst snd heap ext log with_ext].
  set (w0 := mkWorld (heap w ++ [mkContext (Some (VObj o)) None]) e1
                     (log w ++ [EvPoolNew s o])).
  assert (Hc : client (heap w0 !!! length (heap w)) = Some (VObj o)).
  { subst w0. cbn [heap]. now rewrite lookup_total_alloc. }
  destruct (query_all_direct qs (length (heap w)) w0 o Hc) as (Hout & Hext & _).
  destruct (query_all_cached qs (length (heap w)) w0 (VObj o) Hc eq_refl)
    as (_ & evs & Hl & Hd).
  change (ext w0) with e1 in *.
  destruct (query_all qs (Some (length (heap w))) w0) as [out w1].
  cbn [fst snd] in *. subst out.
  split; [reflexivity|]. split; [exact Hext|].
  exists evs. split; [|exact Hd].
  rewrite Hl. subst w0. cbn [log]. now rewrite <- app_assoc.
Qed.

(** X6.  Given a connection string, [db.run] builds one pool from it, and
    builds it before the callback starts, so also when the callback makes
    no query at all; it calls no factory; the queries of the callback get
    what that pool answers when asked directly, in order, and go nowhere
    else. *)
Theorem string_run_builds_one_pool s qs store w :
  fst (db_run (VStr s) (queries qs) store w) =
    Ok (fst (direct_queries (fst (pg_Pool_new s (ext w))) qs
                            (snd (pg_Pool_new s (ext w)))))
  /\ (exists evs,
        log (snd (db_run (VStr s) (queries qs) store w)) =
          log w ++ EvPoolNew s (fst (pg_Pool_new s (ext w))) :: evs
        /\ Forall (delegated_to (VObj (fst (pg_Pool_new s (ext w))))) evs)
  /\ pools_built (log (snd (db_run (VStr s) (queries qs) store w))) =
     pools_built (log w) + 1
  /\ factories_called (log (snd (db_run (VStr s) (queries qs) store w))) =
     factories_called (log w).
Proof.
  destruct (string_run_effect s qs store w) as (Hout & _ & evs & Hl & Hd).
  split; [exact Hout|]. split; [now exists evs|].
  destruct (delegations_counted _ _ Hd) as (Hp & Hf).
  rewrite Hl. unfold pools_built, factories_called in *.
  change (EvPoolNew s (fst (pg_Pool_new s (ext w))) :: evs)
    with ([EvPoolNew s (fst (pg_Pool_new s (ext w)))] ++ evs).
  rewrite !count_where_app, Hp, Hf. cbn. split; lia.
Qed.

(** X7.  The middleware of the Hono example gives every request a pool of
    its own: however many requests are handled and whatever queries their
    handlers make, none included, as many pools are built as requests were
    handled, and no factory is ever called. *)
Theorem middleware_builds_a_pool_per_request s
    (requests : list (list (value * value))) : forall store w,
  pools_built
    (log (snd (serve (fun qs => middleware s (queries qs)) requests store w))) =
    pools_built (log w) + length requests
  /\ factories_called
       (log (snd (serve (fun qs => middleware s (queries qs)) requests store w))) =
     factories_called (log w).
Proof.
  induction requests as [|qs requests IH]; intros store w.
  { cbn. split; lia. }
  cbn [serve]. unfold middleware at 1 3.
  destruct (string_run_effect s qs store w) as (_ & _ & evs & Hl & Hd).
  destruct (delegations_counted _ _ Hd) as (Hp & Hf).
  destruct (db_run (VStr s) (queries qs) store w) as [res w1]. cbn [snd] in Hl.
  destruct (IH store w1) as (IHp & IHf).
  destruct (serve _ requests store w1) as [out w2]. cbn [snd length] in *.
  rewrite IHp, IHf, Hl. unfold pools_built, factories_called in *.
  change (EvPoolNew s (fst (pg_Pool_new s (ext w))) :: evs)
    with ([EvPoolNew s (fst (pg_Pool_new s (ext w)))] ++ evs).
  rewrite !count_where_app, Hp, Hf. cbn. split; lia.
Qed.

(** ** The cached client is the scope's, not the factory's *)

Lemma factory_run_calls f qs store w :
  (forall e, exists c e', call_function f e = (Normal c, e') /\ truthy c = true) ->
  factory_calls f (log (snd (db_run (VFun f) (queries qs) store w))) =
  factory_calls f (log w) + match qs with [] => 0 | _ :: _ => 1 end.
Proof.
  intros Hall. rewrite db_run_factory.
  destruct qs as [|[text values] rest];
    [unfold queries; cbn [query_all snd log]; lia|].
  set (r := length (heap w)).
  set (ws := mkWorld (heap w ++ [mkContext None (Some (VFun f))]) (ext w) (log w)).
  assert (Hrec : heap ws !!! r = mkContext None (Some (VFun f)))
    by apply lookup_total_alloc.
  destruct (Hall (ext ws)) as (c & e1 & Hcall & Ht).
  unfold queries. cbn [query_all].
  rewrite (proxy_query_builds r ws f c e1 text values);
    [|now rewrite Hrec|now rewrite Hrec|exact Hcall].
  set (w1 := assign_client r c (with_ext e1 (EvFactoryCall f (Normal c)) ws)).
  assert (Hh1 : heap w1 = heap w ++ [mkContext (Some c) (Some (VFun f))]).
  { change (heap w1)
      with (<[r := mkContext (Some c) (factory (heap ws !!! r))]> (heap ws)).
    rewrite Hrec. subst r. apply insert_alloc. }
  assert (Hl1 : log w1 = log w ++ [EvFactoryCall f (Normal c)] ++ [EvAssignClient r c]).
  { subst w1. unfold assign_client, with_ext. simpl. now rewrite <- app_assoc. }
  destruct (invoke_query_effect c text values w1) as (Hh2 & evs2 & Hl2 & Hd2).
  destruct (invoke_query c text values w1) as [res w2]. cbn [snd] in Hh2, Hl2.
  assert (Hc2 : client (heap w2 !!! r) = Some c).
  { rewrite Hh2, Hh1. subst r. now rewrite lookup_total_alloc. }
  destruct (query_all_cached rest r w2 c Hc2 Ht) as (_ & evs3 & Hl3 & Hd3).
  destruct (query_all rest (Some r) w2) as [out w3]. cbn [snd] in *.
  rewrite Hl3, Hl2, Hl1, !factory_calls_app, factory_calls_one.
  rewrite (factory_calls_delegations f c evs2 Hd2).
  rewrite (factory_calls_delegations f c evs3 Hd3).
  change (factory_calls f [EvAssignClient r c]) with 0. lia.
Qed.

(** X8.  What a factory built is kept for the scope and for no longer:
    when the same factory is given to one [db.run] after another, and its
    calls return truthy values, it is called once in every run whose
    callback makes a query and not at all in the others. *)
Theorem factory_called_once_per_scope f
    (requests : list (list (value * value))) : forall store w,
  (forall e, exists c e', call_function f e = (Normal c, e') /\ truthy c = true) ->
  factory_calls f
    (log (snd (serve (fun qs => db_run (VFun f) (queries qs)) requests store w))) =
  factory_calls f (log w)
  + count_where (fun qs => match qs with [] => false | _ :: _ => true end) requests.
Proof.
  induction requests as [|qs requests IH]; intros store w Hall.
  { cbn. lia. }
  cbn [serve count_where].
  pose proof (factory_run_calls f qs store w Hall) as Hrun.
  destruct (db_run (VFun f) (queries qs) store w) as [res w1]. cbn [snd] in Hrun.
  specialize (IH store w1 Hall).
  destruct (serve _ requests store w1) as [out w2]. cbn [snd] in *.
  rewrite IH, Hrun. destruct qs; lia.
Qed.

(** ** When the driver raises an error of its own *)

(** X9.  A query through the proxy fails with an error made by the driver
    in two cases and no others: outside every scope, with the message of
    line 32, and under a record with neither a truthy client nor a truthy
    factory, with the message of line 46.  Every other failure is the
    engine's [TypeError] or what foreign code threw. *)
Theorem core_error_iff text values store w message :
  fst (proxy_query text values store w) = Err (CoreError message) <->
  (store = None /\ message = msg_no_context)
  \/ (exists r,
        store = Some r
        /\ truthy (get (client (heap w !!! r))) = false
        /\ truthy (get (factory (heap w !!! r))) = false
        /\ message = msg_no_client_or_factory).
Proof.
  split.
  - intros Herr. destruct store as [r|].
    + right. exists r. split; [reflexivity|].
      destruct (truthy (get (client (heap w !!! r)))) eqn:Hc.
      { exfalso. eapply proxy_query_no_core_error; [|exact Herr]. now left. }
      destruct (truthy (get (factory (heap w !!! r)))) eqn:Hf.
      { exfalso. eapply proxy_query_no_core_error; [|exact Herr]. now right. }
      unfold proxy_query in Herr. rewrite (getClient_neither r w Hc Hf) in Herr.
      cbn in Herr. injection Herr as <-. now repeat split.
    + left. cbn in Herr. injection Herr as <-. now split.
  - intros [[-> ->]|(r & -> & Hc & Hf & ->)]; [reflexivity|].
    unfold proxy_query. now rewrite (getClient_neither r w Hc Hf).
Qed.

(** ** A factory that keeps failing *)




End Scopes.

(** * Properties of the handles *)

Section HandleProperties.

Context {Ext : Type} `{RT : Runtime Ext} `{PP : PgPool Ext} `{ORM : DrizzleOrm}.

Implicit Types (config : DrizzleConfig) (caches : nat -> Cache) (e : Ext).

(** X10.  [drizzle(s, config)] and [drizzle({ connection: s, ...config })]
    are the same call: the same pool is built from [s], and the handle, the
    outside world and the cache objects come out the same.  So it is when
    the object also has a [client] that is falsy. *)
Theorem drizzle_string_is_drizzle_connection s config c e caches :
  truthy (get c) = false ->
  drizzle (ParamsObject (Some (VStr s)) c config) e caches =
  drizzle (ParamsString s (Some config)) e caches.
Proof.
  intros Hc. unfold drizzle. rewrite Hc. reflexivity.
Qed.

(** X11.  A truthy [client] decides alone: [drizzle] then builds no pool
    and leaves the outside world as it is, and what [connection] holds,
    anything or nothing, changes nothing in the result. *)
Theorem drizzle_client_wins connection connection' c config e caches :
  truthy (get c) = true ->
  drizzle (ParamsObject connection c config) e caches =
    drizzle (ParamsObject connection' c config) e caches
  /\ snd (fst (drizzle (ParamsObject connection c config) e caches)) = e
  /\ db_client (fst (fst (drizzle (ParamsObject connection c config) e caches))) =
     Some (ClientOf (get c)).
Proof.
  intros Hc. unfold drizzle. rewrite Hc. repeat split.
Qed.

(** X12.  On every handle [drizzle] or [drizzle.mock] returns, [$client] is
    the very client the session sends its queries to, never the proxy, and
    the handle has no [run]; on a handle of [drizzle.withContext] the
    session has the proxy, [$client] was never set, and [run] is there. *)
Theorem handle_client_is_session_client :
  (forall params e caches,
     let db := fst (fst (drizzle params e caches)) in
     db_client db = Some (session_client (db_session db))
     /\ session_client (db_session db) <> ProxyClient
     /\ db_has_run db = false)
  /\ (forall (given : option DrizzleConfig) caches,
        let db := fst (mock given caches) in
        db_client db = Some (session_client (db_session db))
        /\ session_client (db_session db) = EmptyObject
        /\ db_has_run db = false)
  /\ (forall (given : option DrizzleConfig) caches,
        let db := fst (withContext given caches) in
        session_client (db_session db) = ProxyClient
        /\ db_client db = None
        /\ db_has_run db = true).
Proof.
  split; [|split].
  - intros params e caches db. subst db. unfold drizzle.
    destruct params as [s config|connection c config].
    + destruct (pg_Pool_new s e) as [instance e1]. cbn. repeat split. discriminate.
    + destruct (truthy (get c)).
      * cbn. repeat split. discriminate.
      * destruct (if String.eqb (typeof (get connection)) "string"
                  then pg_Pool_new (string_of (get connection)) e
                  else pg_Pool_of_config (get connection) e) as [instance e1].
        cbn. repeat split. discriminate.
  - intros given caches. cbn. repeat split.
  - intros given caches. cbn. repeat split.
Qed.

(** X13.  The handle of [drizzle.withContext] is set up as the handle
    [construct] makes from the same configuration: same dialect, logger,
    schema, relations and cache, on the session and on the handle, and the
    same change to the cache objects.  They differ in the client of the
    session, in [$client] and in [run], and in nothing else. *)
Theorem withContext_configures_as_construct c config caches :
  let plain := fst (construct c config caches) in
  let scoped := fst (constructWithContext config caches) in
  snd (constructWithContext config caches) = snd (construct c config caches)
  /\ db_session scoped =
     mkSession ProxyClient
       (session_dialect (db_session plain)) (session_relations (db_session plain))
       (session_schema (db_session plain)) (session_logger (db_session plain))
       (session_cache (db_session plain))
  /\ scoped =
     mkDatabase (db_dialect plain) (db_session scoped) (db_relations plain)
                (db_schema plain) None (db_cache plain) true.
Proof. repeat split. Qed.

Lemma set_invalidate_other config caches k :
  cfg_cache config <> Some k -> set_invalidate config caches k = caches k.
Proof.
  unfold set_invalidate, store_cache. destruct (cfg_cache config) as [k'|];
    [|reflexivity].
  intros Hne. destruct (Nat.eqb_spec k k'); [congruence|reflexivity].
Qed.

Lemma set_invalidate_same config caches k :
  cfg_cache config = Some k ->
  set_invalidate config caches k =
  mkCache (onMutate (caches k)) (onMutate (caches k)).
Proof.
  unfold set_invalidate, store_cache. intros ->. now rewrite Nat.eqb_refl.
Qed.

(** X14.  Building a handle with a cache writes that cache object, which
    the caller still holds: its [invalidate] becomes its own [onMutate],
    whatever [invalidate] it had; [onMutate] and every other cache object
    are left alone.  Building a second handle with the same configuration,
    by either constructor, changes nothing more. *)
Theorem construct_overwrites_invalidate c config caches k :
  cfg_cache config = Some k ->
  let caches1 := snd (construct c config caches) in
  invalidate (caches1 k) = onMutate (caches k)
  /\ onMutate (caches1 k) = onMutate (caches k)
  /\ db_cache (fst (construct c config caches)) = Some k
  /\ (forall k', k' <> k -> caches1 k' = caches k')
  /\ (forall c' k', snd (construct c' config caches1) k' = caches1 k')
  /\ (forall k', snd (constructWithContext config caches1) k' = caches1 k').
Proof.
  intros Hk caches1. subst caches1. cbn [construct constructWithContext snd fst db_cache].
  assert (Hsame : set_invalidate config caches k =
                  mkCache (onMutate (caches k)) (onMutate (caches k)))
    by now apply set_invalidate_same.
  assert (Hidem : forall k',
            set_invalidate config (set_invalidate config caches) k' =
            set_invalidate config caches k').
  { intros k'. destruct (decide (k' = k)) as [->|Hne].
    - rewrite (set_invalidate_same config (set_invalidate config caches) k Hk).
      now rewrite Hsame.
    - rewrite !set_invalidate_other by congruence. reflexivity. }
  rewrite Hsame. cbn [invalidate onMutate].
  split; [reflexivity|]. split; [reflexivity|]. split; [exact Hk|].
  split; [|split].
  - intros k' Hne. apply set_invalidate_other. congruence.
  - intros _ k'. apply Hidem.
  - intros k'. apply Hidem.
Qed.

End HandleProperties.

(** * The theorems at work in the sample world *)

Section Instances.

Import Sample.

(** ** Where the claims as worded stop short *)

(** C2 as worded does not hold: a factory all of whose calls return
    normally may be called more than once in a scope.  Factory 2 returns
    [undefined], and two queries call it twice. *)
Lemma factory_called_twice_when_result_falsy :
  ~ (forall f (qs : list (value * value)) (w : @world nat),
       qs <> [] ->
       (forall e, exists c e', call_function f e = (Normal c, e')) ->
       factory_calls f (log (snd (db_run (VFun f) (queries qs) None w))) =
       factory_calls f (log w) + 1).
Proof.
  intros H.
  specialize (H 2 [select1; select2] w0).
  assert (Hne : [select1; select2] <> []) by discriminate.
  assert (Hok : forall e : nat, exists c e', call_function 2 e = (Normal c, e')).
  { intros e. exists VUndefined, (S e). reflexivity. }
  specialize (H Hne Hok). vm_compute in H. discriminate.
Qed.

(** C7 as worded does not hold: an input that is neither [null] nor
    [undefined] can lead to the error of line 45.  [false] is stored as the
    client, and the first query finds neither a client nor a factory. *)
Lemma invariant_error_reached_with_false :
  ~ (forall input text values (w : @world nat),
       input <> VNull -> input <> VUndefined ->
       fst (db_run input (proxy_query text values) None w) <>
       Err (CoreError msg_no_client_or_factory)).
Proof.
  intros H.
  apply (H (VBool false) (VStr "select 1") VUndefined w0); [discriminate..|].
  reflexivity.
Qed.

(** ** The theorems at concrete inputs *)

Lemma run_returns_what_callback_returns_witness :
  db_run (VFun 0) (queries [select1; select2]) None w0 =
  queries [select1; select2] (Some 0)
          (mkWorld [mkContext None (Some (VFun 0))] 0 []).
Proof.
  destruct (run_returns_what_callback_returns (RT := runtime) (VFun 0)
              (queries [select1; select2]) None w0)
    as (context & w1 & Hn & Hrun & _).
  injection Hn as <- <-. exact Hrun.
Defined.

Lemma query_delegates_to_client_witness :
  truthy (get (client (heap w_client !!! 0))) = true
  /\ proxy_query (VStr "select 1") VUndefined (Some 0) w_client =
     invoke_query (VObj 7) (VStr "select 1") VUndefined w_client.
Proof.
  split; [reflexivity|].
  destruct (query_delegates_to_client (RT := runtime) 0 w_client
              (VStr "select 1") VUndefined) as (Hq & _); [reflexivity|].
  exact Hq.
Defined.

Lemma factory_called_once_witness :
  call_function 0 (ext w0) = (Normal (VObj 7), 1)
  /\ truthy (VObj 7) = true
  /\ factory_calls 0
       (log (snd (db_run (VFun 0) (queries [select1; select2]) None w0))) = 1
  /\ fst (db_run (VFun 0) (queries [select1; select2]) None w0) =
     Ok [Ok (VStr "select 1"); Ok (VStr "select 2")]
  /\ log (snd (db_run (VFun 0) (queries [select1; select2]) None w0)) =
     [ EvFactoryCall 0 (Normal (VObj 7));
       EvAssignClient 0 (VObj 7);
       EvClientQuery 7 (VStr "select 1") VUndefined (Normal (VStr "select 1"));
       EvClientQuery 7 (VStr "select 2") VUndefined (Normal (VStr "select 2")) ].
Proof.
  split; [reflexivity|]. split; [reflexivity|].
  destruct (factory_called_once (RT := runtime) 0 (VObj 7) 1 select1 [select2]
              None w0) as (_ & _ & Hcalls & _ & Hobject & _); [reflexivity..|].
  destruct (Hobject 7 eq_refl) as (Hout & _ & Hlog).
  split; [exact Hcalls|]. split; [exact Hout|exact Hlog].
Defined.



Lemma invariant_error_needs_unusable_record_witness :
  (truthy (get (client (heap w_empty !!! 0))) = false
   /\ truthy (get (factory (heap w_empty !!! 0))) = false
   /\ proxy_query (VStr "select 1") VUndefined (Some 0) w_empty =
      (Err (CoreError msg_no_client_or_factory), w_empty))
  /\ Forall well_called one_request
  /\ fst (run_schedule [0; 0; 0] (initial one_request) w0) !! 1 =
     Some (0, LQuery (Some 0)
                (Some (mkContext (Some (VObj 1000)) None))
                (Some (mkContext (Some (VObj 1000)) None))
                (Ok (VObj 1000)) (Ok (VStr "select 1")))
  /\ Ok (VStr "select 1") <> Err (CoreError msg_no_client_or_factory).
Proof.
  destruct (invariant_error_needs_unusable_record (RT := runtime))
    as (Hneither & _ & Hnever & _).
  assert (Hwc : Forall well_called one_request).
  { repeat constructor. }
  split.
  { split; [reflexivity|]. split; [reflexivity|].
    apply Hneither; reflexivity. }
  split; [exact Hwc|]. split; [reflexivity|].
  apply (Hnever one_request w0 [0; 0; 0] 1 0 (Some 0)
           (Some (mkContext (Some (VObj 1000)) None))
           (Some (mkContext (Some (VObj 1000)) None))
           (Ok (VObj 1000)) (Ok (VStr "select 1")) Hwc).
  reflexivity.
Defined.

(** The query of the second request, made after the first request has
    established its scope and made a query on client 1, is made under the
    record the second request established, through the factory 0 given to
    it, and on client 7, which that factory built. *)
Lemma scopes_are_isolated_witness :
  fst (run_schedule [0; 1; 0; 1; 0; 1; 0] (initial two_requests) w0) !! 3 =
    Some (1, LQuery (Some 1)
               (Some (mkContext None (Some (VFun 0))))
               (Some (mkContext (Some (VObj 7)) (Some (VFun 0))))
               (Ok (VObj 7)) (Ok (VStr "select c")))
  /\ Some 1 =
     head (open_scopes 1
             (take 3 (fst (run_schedule [0; 1; 0; 1; 0; 1; 0]
                             (initial two_requests) w0))))
  /\ (exists m input context c,
        m < 3
        /\ fst (run_schedule [0; 1; 0; 1; 0; 1; 0] (initial two_requests) w0) !! m =
           Some (1, LEnter input 1 context)
        /\ enters input context
        /\ (forall k j l,
              fst (run_schedule [0; 1; 0; 1; 0; 1; 0] (initial two_requests) w0) !! k
                = Some (j, l) ->
              mentions 1 l = true -> j = 1)
        /\ Some (mkContext None (Some (VFun 0))) = Some c
        /\ last_left 1
             (take 3 (fst (run_schedule [0; 1; 0; 1; 0; 1; 0]
                             (initial two_requests) w0))) = Some c
        /\ factory c = factory context
        /\ (truthy (get (client context)) = true ->
            c = context /\ Ok (VObj 7) = Ok (get (client context)))
        /\ (exists e : nat,
              Ok (VObj 7) =
              fst (getClientFromContext (Some 0) (mkWorld [c] e []))))
  /\ exists pre post text values k t ts1 w1,
       [0; 1; 0; 1; 0; 1; 0] = pre ++ 1 :: post
       /\ run_schedule pre (initial two_requests) w0 =
          (take 3 (fst (run_schedule [0; 1; 0; 1; 0; 1; 0]
                          (initial two_requests) w0)), (ts1, w1))
       /\ ts1 !! 1 = Some t
       /\ t_code t = Query text values k
       /\ t_store t = Some 1
       /\ Some (mkContext None (Some (VFun 0))) = record_at (Some 1) w1
       /\ Ok (VObj 7) = fst (getClientFromContext (Some 1) w1)
       /\ Ok (VStr "select c") = fst (proxy_query text values (Some 1) w1)
       /\ Some (mkContext (Some (VObj 7)) (Some (VFun 0))) =
          record_at (Some 1) (snd (proxy_query text values (Some 1) w1))
       /\ sys_step 1 ts1 w1 =
          Some (LQuery (Some 1)
                  (Some (mkContext None (Some (VFun 0))))
                  (Some (mkContext (Some (VObj 7)) (Some (VFun 0))))
                  (Ok (VObj 7)) (Ok (VStr "select c")),
                <[1 := mkTask (Some 1) (k (Ok (VStr "select c"))) (t_stack t)]> ts1,
                snd (proxy_query text values (Some 1) w1))
       /\ (forall o, client (heap w1 !!! 1) = Some (VObj o) ->
             proxy_query text values (Some 1) w1 =
             (lift (fst (client_query o text values (ext w1))),
              mkWorld (heap w1) (snd (client_query o text values (ext w1)))
                      (log w1 ++ [EvClientQuery o text values
                                    (fst (client_query o text values (ext w1)))])))
       /\ (forall f, truthy (get (client (heap w1 !!! 1))) = false ->
             factory (heap w1 !!! 1) = Some (VFun f) ->
             proxy_query text values (Some 1) w1 =
             (let '(made, e) := call_function f (ext w1) in
              match made with
              | Normal v =>
                  invoke_query v text values
                    (assign_client 1 v (with_ext e (EvFactoryCall f made) w1))
              | Abrupt x =>
                  (Err (Foreign x), with_ext e (EvFactoryCall f made) w1)
              end)).
Proof.
  split; [reflexivity|].
  apply (scopes_are_isolated (RT := runtime) two_requests w0
           [0; 1; 0; 1; 0; 1; 0] 3 1 (Some 1)
           (Some (mkContext None (Some (VFun 0))))
           (Some (mkContext (Some (VObj 7)) (Some (VFun 0))))
           (Ok (VObj 7)) (Ok (VStr "select c"))).
  reflexivity.
Defined.

(** What the log shows of the two requests in flight: the query of the
    first on client 1, then the second calling its factory, keeping client
    7 and making its query on it, then the second query of the first, on
    client 1 again. *)
Example two_requests_log :
  log (snd (snd (run_schedule [0; 1; 0; 1; 0; 1; 0] (initial two_requests) w0))) =
  [ EvClientQuery 1 (VStr "select a") VUndefined (Normal (VStr "select a"));
    EvFactoryCall 0 (Normal (VObj 7));
    EvAssignClient 1 (VObj 7);
    EvClientQuery 7 (VStr "select c") VUndefined (Normal (VStr "select c"));
    EvClientQuery 1 (VStr "select b") VUndefined (Normal (VStr "select b")) ].
Proof. reflexivity. Qed.

(** ** The further properties at concrete inputs *)

Import SampleHandles.

Lemma cached_client_is_stable_witness :
  truthy (get (client (heap w_client !!! 0))) = true
  /\ heap (snd (snd (run_schedule [1; 0; 1; 1; 0] two_in_scope w_client))) !!! 0 =
     heap w_client !!! 0.
Proof.
  split; [reflexivity|].
  apply (cached_client_is_stable (RT := runtime) [1; 0; 1; 1; 0] two_in_scope
           w_client 0).
  reflexivity.
Defined.

Lemma nested_run_leaves_outer_records_witness :
  0 < length (heap w_client)
  /\ heap (snd (db_run (VFun 0)
                  (exec (Query (VStr "select 1") VUndefined Settle))
                  (Some 0) w_client)) !!! 0 =
     heap w_client !!! 0.
Proof.
  split; [cbn; lia|].
  apply (nested_run_leaves_outer_records (RT := runtime) (VFun 0)
           (Query (VStr "select 1") VUndefined Settle) (Some 0) w_client).
  cbn; lia.
Defined.

Lemma nested_scopes_shadow_and_restore_witness :
  client (heap w_client !!! 0) = Some (VObj 7)
  /\ truthy (VObj 7) = true
  /\ exec (Run (VObj 1) (Query (VStr "select a") VUndefined Settle)
             (fun _ => Query (VStr "select 1") VUndefined Settle))
          (Some 0) w_client =
     (let '(_, w1) :=
        db_run (VObj 1) (exec (Query (VStr "select a") VUndefined Settle))
               (Some 0) w_client in
      let '(res, w2) := invoke_query (VObj 7) (VStr "select 1") VUndefined w1 in
      exec (Settle res) (Some 0) w2).
Proof.
  split; [reflexivity|]. split; [reflexivity|].
  apply (nested_scopes_shadow_and_restore (RT := runtime) (VStr "select 1")
           VUndefined Settle); reflexivity.
Defined.

Lemma factory_called_once_per_scope_witness :
  (forall e : nat, exists c e',
     call_function 0 e = (Normal c, e') /\ truthy c = true)
  /\ factory_calls 0
       (log (snd (serve (fun qs => db_run (VFun 0) (queries qs))
                        [[select1; select2]; []; [select2]] None w0))) = 2.
Proof.
  assert (Hall : forall e : nat, exists c e',
            call_function 0 e = (Normal c, e') /\ truthy c = true).
  { intros e. exists (VObj 7), (S e). split; reflexivity. }
  split; [exact Hall|].
  apply (factory_called_once_per_scope (RT := runtime) 0
           [[select1; select2]; []; [select2]] None w0 Hall).
Defined.

Lemma core_error_iff_witness :
  truthy (get (client (heap w_empty !!! 0))) = false
  /\ truthy (get (factory (heap w_empty !!! 0))) = false
  /\ fst (proxy_query (VStr "select 1") VUndefined (Some 0) w_empty) =
     Err (CoreError msg_no_client_or_factory).
Proof.
  split; [reflexivity|]. split; [reflexivity|].
  apply (core_error_iff (RT := runtime) (VStr "select 1") VUndefined (Some 0)
           w_empty msg_no_client_or_factory).
  right. exists 0. repeat split.
Defined.

Lemma drizzle_string_is_drizzle_connection_witness :
  truthy (get (Some VNull)) = false
  /\ drizzle (ParamsObject (Some (VStr "postgres://u:p@h/db")) (Some VNull)
                cached_config) 0 some_caches =
     drizzle (ParamsString "postgres://u:p@h/db" (Some cached_config)) 0 some_caches.
Proof.
  split; [reflexivity|].
  apply (drizzle_string_is_drizzle_connection (RT := runtime) (PP := pool)
           (ORM := orm)).
  reflexivity.
Defined.

Lemma drizzle_client_wins_witness :
  truthy (get (Some (VObj 7))) = true
  /\ drizzle (ParamsObject (Some (VStr "postgres://u:p@h/db")) (Some (VObj 7))
                cached_config) 0 some_caches =
     drizzle (ParamsObject None (Some (VObj 7)) cached_config) 0 some_caches.
Proof.
  split; [reflexivity|].
  apply (drizzle_client_wins (RT := runtime) (PP := pool) (ORM := orm)
           (Some (VStr "postgres://u:p@h/db")) None (Some (VObj 7))
           cached_config 0 some_caches).
  reflexivity.
Defined.

Lemma construct_overwrites_invalidate_witness :
  cfg_cache cached_config = Some 3
  /\ invalidate (snd (construct (ClientOf (VObj 7)) cached_config some_caches) 3) =
     onMutate (some_caches 3).
Proof.
  split; [reflexivity|].
  apply (construct_overwrites_invalidate (ORM := orm) (ClientOf (VObj 7))
           cached_config some_caches 3).
  reflexivity.
Defined.


End Instances.
